(** * numba/rewrites/ir_print.py: the two print rewrites

    A shallow embedding of [RewritePrintCalls] and
    [DetectConstPrintArguments] over an explicit object store.  IR
    instructions and blocks are Python objects: they are compared, hashed and
    mutated by identity, so the store maps addresses to their contents and the
    block bodies and the rewrite plans hold addresses. *)

From Stdlib Require Import ZArith.
From stdpp Require Import gmap strings list.

(** ** Exceptions *)

Inductive Exn :=
  | ConstantInferenceError
  | AttributeError
  | OtherError (name : string).

Inductive result (A : Type) :=
  | Ok (a : A)
  | Raise (e : Exn).
Arguments Ok {A} a.
Arguments Raise {A} e.

Global Instance result_bind : MBind result := λ A B k m,
  match m with
  | Ok a => k a
  | Raise e => Raise e
  end.

Global Instance result_ret : MRet result := λ A a, Ok a.

(** A [for] loop whose body may raise: the first exception leaves the loop. *)
Fixpoint for_each {S A} (f : S → A → result S) (l : list A) (s : S) : result S :=
  match l with
  | [] => Ok s
  | x :: l' => s' ← f s x; for_each f l' s'
  end.

(** ** The IR (numba/ir.py), as far as the two rewrites read and write it *)

Module IR.

Record Loc := { line : nat; col : nat }.

Record Var := { name : string }.

(** Python values an inference can produce.  [BuiltinPrint] is the one
    object bound to the name [print] in the builtins; a user function is
    another object whatever its name. *)
Inductive PyObj :=
  | PyNone
  | PyInt (z : Z)
  | PyStr (s : string)
  | BuiltinPrint
  | PyFunction (qualname : string) (id : nat).

(** [x is print] *)
Definition is_print (x : PyObj) : bool :=
  match x with
  | BuiltinPrint => true
  | _ => false
  end.

(** [ir.Expr]: [op] names the form; [func], [args], [kws] and [vararg] are
    the attributes of the call form. *)
Record Expr := {
  op : string;
  func : Var;
  args : list Var;
  kws : list (string * Var);
  vararg : option Var;
  loc : Loc
}.

(** The right-hand side of an assignment. *)
Inductive Value :=
  | VExpr (expr : Expr)
  | VConst (value : PyObj) (loc : Loc)
  | VVar (var : Var)
  | VGlobal (name : string) (value : PyObj) (loc : Loc).

Inductive Inst :=
  | Assign (value : Value) (target : Var) (loc : Loc)
  | Print (args : list Var) (vararg : option Var)
          (consts : gmap nat PyObj) (loc : Loc)
  | Return (value : Var) (loc : Loc)
  | Jump (target : nat) (loc : Loc).

Inductive InstClass := AssignCls | PrintCls | ReturnCls | JumpCls.

Definition isinstance (inst : Inst) (cls : InstClass) : bool :=
  match inst, cls with
  | Assign _ _ _, AssignCls => true
  | Print _ _ _ _, PrintCls => true
  | Return _ _, ReturnCls => true
  | Jump _ _, JumpCls => true
  | _, _ => false
  end.

(** Addresses of objects in the store. *)
Definition ref := nat.

Record Block := { scope : nat; body : list ref; block_loc : Loc }.

Record Heap := { insts : list Inst; blocks : list Block }.

(** Modelled from the spec: numba/ir.py is not part of the sources.  The
    Print node is built with an initially empty constant mapping, and a new
    object gets an address no live object has. *)
Definition new_inst (h : Heap) (inst : Inst) : Heap * ref :=
  ({| insts := insts h ++ [inst]; blocks := blocks h |}, length (insts h)).

Definition new_Print (h : Heap) (args : list Var) (vararg : option Var)
    (loc : Loc) : Heap * ref :=
  new_inst h (Print args vararg ∅ loc).

Definition block_body (h : Heap) (block : ref) : list ref :=
  match blocks h !! block with
  | Some blk => body blk
  | None => []
  end.

(** Modelled from the spec: Block.find_insts of numba/ir.py enumerates the
    instructions of the requested kind, ordered and stable. *)
Definition find_insts (h : Heap) (block : ref) (cls : InstClass) : list ref :=
  List.filter
    (λ inst, match insts h !! inst with
             | Some i => isinstance i cls
             | None => false
             end)
    (block_body h block).

(** Modelled from the spec: Block.copy of numba/ir.py produces a new block
    with the metadata of the old one and its own body list. *)
Definition Block_copy (h : Heap) (block : ref) : result (Heap * ref) :=
  match blocks h !! block with
  | Some blk =>
      Ok ({| insts := insts h;
             blocks := blocks h ++ [ {| scope := scope blk;
                                        body := body blk;
                                        block_loc := block_loc blk |} ] |},
          length (blocks h))
  | None => Raise AttributeError
  end.

Definition set_body (l : list ref) (blk : Block) : Block :=
  {| scope := scope blk; body := l; block_loc := block_loc blk |}.

(** Modelled from the spec: Block.clear and Block.append of numba/ir.py
    update the body list of the block in place. *)
Definition Block_clear (h : Heap) (block : ref) : Heap :=
  {| insts := insts h;
     blocks := alter (set_body []) block (blocks h) |}.

Definition Block_append (h : Heap) (block : ref) (inst : ref) : Heap :=
  {| insts := insts h;
     blocks := alter (λ blk, set_body (body blk ++ [inst]) blk) block (blocks h) |}.

(** [inst.consts = m].  Every key of a plan of [DetectConstPrintArguments]
    is a Print node; on the other kinds the store is left as it is. *)
Definition set_consts (m : gmap nat PyObj) (inst : Inst) : Inst :=
  match inst with
  | Print args vararg _ loc => Print args vararg m loc
  | other => other
  end.

Definition setattr_consts (h : Heap) (inst : ref) (m : gmap nat PyObj) : Heap :=
  {| insts := alter (set_consts m) inst (insts h); blocks := blocks h |}.

(** [enumerate(l)], counting from [n]. *)
Fixpoint enumerate_from {A} (n : nat) (l : list A) : list (nat * A) :=
  match l with
  | [] => []
  | x :: l' => (n, x) :: enumerate_from (S n) l'
  end.

Definition enumerate {A} (l : list A) : list (nat * A) := enumerate_from 0 l.

(** Truth value of a list and of a dict. *)
Definition truthy_list {A} (l : list A) : bool :=
  match l with
  | [] => false
  | _ :: _ => true
  end.

Definition truthy_dict {V} (m : gmap nat V) : bool := negb (Nat.eqb (size m) 0).

(** The constant inference of the interpreter: [infer_constant] returns the
    constant or raises. *)
Record Interp := { infer_constant : Var → result PyObj }.

End IR.
Import IR.

(** ** RewritePrintCalls *)

Module RewritePrintCalls.

(** The attributes [match] leaves on the rule instance. *)
Record self := { prints : gmap ref Expr; block : ref }.

(** The body of the loop of [match] (lines 22-32). *)
Definition match_inst (interp : Interp) (h : Heap)
    (prints : gmap ref Expr) (inst : ref) : result (gmap ref Expr) :=
  match insts h !! inst with
  | Some (Assign (VExpr expr) _ _) =>
      if String.eqb (op expr) "call" then
        if truthy_list (kws expr) then
          Ok prints
        else
          match infer_constant interp (func expr) with
          | Raise ConstantInferenceError => Ok prints
          | Raise e => Raise e
          | Ok callee =>
              if is_print callee then Ok (<[inst := expr]> prints)
              else Ok prints
          end
      else Ok prints
  | _ => Ok prints
  end.

Definition match_ (interp : Interp) (h : Heap) (block : ref)
    : result (self * bool) :=
  prints ← for_each (match_inst interp h) (find_insts h block AssignCls) ∅;
  Ok ({| prints := prints; block := block |}, Nat.ltb 0 (size prints)).

(** The body of the loop of [apply] (lines 43-53). *)
Definition apply_inst (self : self) (new_block : ref)
    (h : Heap) (inst : ref) : result Heap :=
  match prints self !! inst with
  | Some expr =>
      let '(h, print_node) := new_Print h (args expr) (vararg expr) (loc expr) in
      let h := Block_append h new_block print_node in
      match insts h !! inst with
      | Some (Assign _ target inst_loc) =>
          let '(h, assign_node) :=
            new_inst h (Assign (VConst PyNone (loc expr)) target inst_loc) in
          Ok (Block_append h new_block assign_node)
      | _ => Raise AttributeError
      end
  | None => Ok (Block_append h new_block inst)
  end.

Definition apply (self : self) (h : Heap) : result (Heap * ref) :=
  '(h, new_block) ← Block_copy h (block self);
  let h := Block_clear h new_block in
  h ← for_each (apply_inst self new_block) (block_body h (block self)) h;
  Ok (h, new_block).

End RewritePrintCalls.

(** ** DetectConstPrintArguments *)

Module DetectConstPrintArguments.

Record self := { consts : gmap ref (gmap nat PyObj); block : ref }.

(** The body of the inner loop of [match] (lines 71-75). *)
Definition match_arg (interp : Interp) (inst : ref)
    (consts : gmap ref (gmap nat PyObj)) (iv : nat * Var)
    : result (gmap ref (gmap nat PyObj)) :=
  let '(idx, var) := iv in
  match infer_constant interp var with
  | Raise ConstantInferenceError => Ok consts
  | Raise e => Raise e
  | Ok const =>
      Ok (<[inst := <[idx := const]> (default ∅ (consts !! inst))]> consts)
  end.

(** The body of the outer loop of [match] (lines 67-75). *)
Definition match_inst (interp : Interp) (h : Heap)
    (consts : gmap ref (gmap nat PyObj)) (inst : ref)
    : result (gmap ref (gmap nat PyObj)) :=
  match insts h !! inst with
  | Some (Print args _ inst_consts _) =>
      if truthy_dict inst_consts then Ok consts
      else for_each (match_arg interp inst) (enumerate args) consts
  | _ => Ok consts
  end.

Definition match_ (interp : Interp) (h : Heap) (block : ref)
    : result (self * bool) :=
  consts ← for_each (match_inst interp h) (find_insts h block PrintCls) ∅;
  Ok ({| consts := consts; block := block |}, Nat.ltb 0 (size consts)).

(** The body of the loop of [apply] (lines 84-85). *)
Definition apply_inst (self : self) (h : Heap) (inst : ref) : Heap :=
  match consts self !! inst with
  | Some m => setattr_consts h inst m
  | None => h
  end.

Definition apply (self : self) (h : Heap) : Heap * ref :=
  (fold_left (apply_inst self) (block_body h (block self)) h, block self).

End DetectConstPrintArguments.

(** ** The pass driver *)

(** Modelled from the spec: the pass driver is not part of the sources.  One
    turn of its loop runs [match] and, when it answers true, [apply]; the
    loop ends at the first [match] that answers false.  [None] is a loop that
    has not ended within [fuel] turns. *)
Definition cycle {Self} (match_ : Heap → ref → result (Self * bool))
    (apply : Self → Heap → result (Heap * ref))
    (h : Heap) (block : ref) : result (option (Heap * ref)) :=
  '(rule, found) ← match_ h block;
  if found : bool then hb ← apply rule h; Ok (Some hb) else Ok None.

Fixpoint run_rule {Self} (match_ : Heap → ref → result (Self * bool))
    (apply : Self → Heap → result (Heap * ref))
    (fuel : nat) (h : Heap) (block : ref) : option (result (Heap * ref)) :=
  match fuel with
  | 0 => None
  | S fuel =>
      match cycle match_ apply h block with
      | Raise e => Some (Raise e)
      | Ok None => Some (Ok (h, block))
      | Ok (Some (h', block')) => run_rule match_ apply fuel h' block'
      end
  end.

(** ** Specification vocabulary *)

(** The inference fails only the expected way. *)
Definition only_inference_errors (interp : Interp) : Prop :=
  ∀ var e, infer_constant interp var = Raise e → e = ConstantInferenceError.

(** The trigger of [RewritePrintCalls]: an assignment of a call without
    keyword arguments whose callee is inferred to be the builtin print. *)
Definition is_print_call (interp : Interp) (h : Heap) (inst : ref) (expr : Expr)
    : Prop :=
  ∃ target inst_loc,
    insts h !! inst = Some (Assign (VExpr expr) target inst_loc) ∧
    op expr = "call" ∧ kws expr = [] ∧
    infer_constant interp (func expr) = Ok BuiltinPrint.

(** What one turn of the loop of [RewritePrintCalls.match] finds out about an
    instruction. *)
Definition print_call (interp : Interp) (h : Heap) (inst : ref)
    : result (option Expr) :=
  match insts h !! inst with
  | Some (Assign (VExpr expr) _ _) =>
      if String.eqb (op expr) "call" && negb (truthy_list (kws expr)) then
        match infer_constant interp (func expr) with
        | Ok callee => Ok (if is_print callee then Some expr else None)
        | Raise ConstantInferenceError => Ok None
        | Raise e => Raise e
        end
      else Ok None
  | _ => Ok None
  end.

(** The instructions [RewritePrintCalls.apply] creates for a body, in the
    order of their creation, and the body it builds when the first new
    address is [n]. *)
Fixpoint new_nodes (prints : gmap ref Expr) (old : list Inst) (l : list ref)
    : list Inst :=
  match l with
  | [] => []
  | inst :: l' =>
      match prints !! inst, old !! inst with
      | Some expr, Some (Assign _ target inst_loc) =>
          Print (args expr) (vararg expr) ∅ (loc expr)
          :: Assign (VConst PyNone (loc expr)) target inst_loc
          :: new_nodes prints old l'
      | _, _ => new_nodes prints old l'
      end
  end.

Fixpoint new_body (prints : gmap ref Expr) (n : nat) (l : list ref) : list ref :=
  match l with
  | [] => []
  | inst :: l' =>
      match prints !! inst with
      | Some _ => n :: S n :: new_body prints (S (S n)) l'
      | None => inst :: new_body prints n l'
      end
  end.

(** [Rewritten prints h h' l l']: the body [l'] in the store [h'] is the body
    [l] of the store [h] with every instruction of the plan replaced by a new
    Print node followed by a new assignment of None, and every other
    instruction kept where it was. *)
Inductive Rewritten (prints : gmap ref Expr) (h h' : Heap)
    : list ref → list ref → Prop :=
  | Rewritten_nil : Rewritten prints h h' [] []
  | Rewritten_keep inst l l' :
      prints !! inst = None →
      Rewritten prints h h' l l' →
      Rewritten prints h h' (inst :: l) (inst :: l')
  | Rewritten_print inst expr value target inst_loc print_node assign_node l l' :
      prints !! inst = Some expr →
      insts h !! inst = Some (Assign value target inst_loc) →
      insts h !! print_node = None →
      insts h !! assign_node = None →
      insts h' !! print_node
        = Some (Print (args expr) (vararg expr) ∅ (loc expr)) →
      insts h' !! assign_node
        = Some (Assign (VConst PyNone (loc expr)) target inst_loc) →
      Rewritten prints h h' l l' →
      Rewritten prints h h' (inst :: l) (print_node :: assign_node :: l').

(** Every live object of [h] is in [h'] at its address with its contents. *)
Definition extends (h h' : Heap) : Prop :=
  (∀ inst i, insts h !! inst = Some i → insts h' !! inst = Some i) ∧
  (∀ block blk, blocks h !! block = Some blk → blocks h' !! block = Some blk).

(** Every entry of the plan that the loop of [apply] meets is a live
    assignment. *)
Definition plan_live (self : RewritePrintCalls.self) (old : list Inst)
    (l : list ref) : Prop :=
  ∀ inst expr, inst ∈ l → RewritePrintCalls.prints self !! inst = Some expr →
    ∃ value target inst_loc, old !! inst = Some (Assign value target inst_loc).

(** The new instructions are Print nodes and assignments of a constant. *)
Definition is_new_node (i : Inst) : Prop :=
  match i with
  | Print _ _ _ _ => True
  | Assign (VConst _ _) _ _ => True
  | _ => False
  end.

(** The store after [RewritePrintCalls.apply] on a live block. *)
Definition applied (self : RewritePrintCalls.self) (h : Heap) (blk : Block)
    : Heap :=
  {| insts := insts h
       ++ new_nodes (RewritePrintCalls.prints self) (insts h) (body blk);
     blocks := blocks h
       ++ [set_body (new_body (RewritePrintCalls.prints self)
                       (length (insts h)) (body blk)) blk] |}.

(** The constants of the arguments [args], numbered from [n]: what the inner
    loop of [match] records for one Print node. *)
Fixpoint const_args (interp : Interp) (n : nat) (args : list Var)
    : result (gmap nat PyObj) :=
  match args with
  | [] => Ok ∅
  | var :: args' =>
      match infer_constant interp var with
      | Ok const => m ← const_args interp (S n) args'; Ok (<[n := const]> m)
      | Raise ConstantInferenceError => const_args interp (S n) args'
      | Raise e => Raise e
      end
  end.

(** What one turn of the outer loop of [match] finds out about an
    instruction; the empty mapping stands for no entry in the plan. *)
Definition print_consts (interp : Interp) (h : Heap) (inst : ref)
    : result (gmap nat PyObj) :=
  match insts h !! inst with
  | Some (Print args _ inst_consts _) =>
      if truthy_dict inst_consts then Ok ∅ else const_args interp 0 args
  | _ => Ok ∅
  end.

(** [consts.setdefault(inst, {})] updated with the entries of [m], when there
    are any. *)
Definition record_consts (inst : ref) (m : gmap nat PyObj)
    (consts : gmap ref (gmap nat PyObj)) : gmap ref (gmap nat PyObj) :=
  if truthy_dict m then <[inst := m ∪ default ∅ (consts !! inst)]> consts
  else consts.

(** The trigger of [DetectConstPrintArguments]: a Print node whose constant
    mapping is empty. *)
Definition is_unannotated_print (h : Heap) (inst : ref) (args : list Var) : Prop :=
  ∃ vararg inst_loc, insts h !! inst = Some (Print args vararg ∅ inst_loc).

(** The entry of the plan of [DetectConstPrintArguments.match] for [inst]
    once the loop has met it. *)
Definition plan_entry (interp : Interp) (h : Heap) (inst : ref)
    : option (gmap nat PyObj) :=
  match print_consts interp h inst with
  | Ok m => if truthy_dict m then Some m else None
  | Raise _ => None
  end.

(** The loop of the pass driver for each rule. *)
Definition run_print_calls (interp : Interp) :=
  run_rule (RewritePrintCalls.match_ interp) RewritePrintCalls.apply.

Definition run_const_args (interp : Interp) :=
  run_rule (DetectConstPrintArguments.match_ interp)
    (λ self h, Ok (DetectConstPrintArguments.apply self h)).

(** One match/apply cycle of [DetectConstPrintArguments] on a block. *)
Definition const_args_cycle (interp : Interp) (h : Heap) (block : ref)
    : result (Heap * ref) :=
  '(self, _) ← DetectConstPrintArguments.match_ interp h block;
  Ok (DetectConstPrintArguments.apply self h).


(** ** Examples *)

Module Examples.

Definition var (s : string) : Var := {| name := s |}.

Definition at_line (n : nat) : Loc := {| line := n; col := 4 |}.

(** [print] is the builtin, [myprint] a user function that is named print,
    [$const1] and [$const2] are 1 and 2; nothing else is known statically. *)
Definition interp : Interp :=
  {| infer_constant := λ v,
       if String.eqb (name v) "print" then Ok BuiltinPrint
       else if String.eqb (name v) "myprint" then Ok (PyFunction "print" 7)
       else if String.eqb (name v) "$const1" then Ok (PyInt 1)
       else if String.eqb (name v) "$const2" then Ok (PyInt 2)
       else Raise ConstantInferenceError |}.

Definition call (f : string) (a : list Var) (k : list (string * Var))
    (n : nat) : Expr :=
  {| op := "call"; func := var f; args := a; kws := k; vararg := None;
     loc := {| line := n; col := 8 |} |}.

Definition print_1_2 : Expr := call "print" [var "$const1"; var "$const2"] [] 1.
Definition print_x_fmt : Expr := call "print" [var "x"] [("fmt", var "y")] 2.
Definition myprint_1 : Expr := call "myprint" [var "$const1"] [] 3.
Definition f_1 : Expr := call "f" [var "$const1"] [] 4.

(** [r = print(1, 2); s = print(x, fmt=y); t = myprint(1); u = f(1);
    return r] *)
Definition calls : Heap :=
  {| insts := [ Assign (VExpr print_1_2) (var "r") (at_line 1);
                Assign (VExpr print_x_fmt) (var "s") (at_line 2);
                Assign (VExpr myprint_1) (var "t") (at_line 3);
                Assign (VExpr f_1) (var "u") (at_line 4);
                Return (var "r") (at_line 5) ];
     blocks := [ {| scope := 0; body := [0; 1; 2; 3; 4];
                    block_loc := at_line 1 |} ] |}.

(** The plan [match] makes for [calls]. *)
Definition calls_plan : RewritePrintCalls.self :=
  {| RewritePrintCalls.prints := {[ 0 := print_1_2 ]};
     RewritePrintCalls.block := 0 |}.

(** [calls] without its first instruction: no call of the builtin print. *)
Definition no_print : Heap :=
  {| insts := insts calls;
     blocks := [ {| scope := 0; body := [1; 2; 3; 4];
                    block_loc := at_line 2 |} ] |}.

(** [print(1, y); print(y); return r], the Print nodes not yet annotated. *)
Definition nodes : Heap :=
  {| insts := [ Print [var "$const1"; var "y"] None ∅ (at_line 1);
                Print [var "y"] None ∅ (at_line 2);
                Return (var "r") (at_line 3) ];
     blocks := [ {| scope := 0; body := [0; 1; 2];
                    block_loc := at_line 1 |} ] |}.

(** The plan [match] makes for [nodes]. *)
Definition nodes_plan : DetectConstPrintArguments.self :=
  {| DetectConstPrintArguments.consts := {[ 0 := {[ 0 := PyInt 1 ]} ]};
     DetectConstPrintArguments.block := 0 |}.

(** [nodes] without its first instruction: nothing can be annotated. *)
Definition no_const : Heap :=
  {| insts := insts nodes;
     blocks := [ {| scope := 0; body := [1; 2]; block_loc := at_line 2 |} ] |}.

End Examples.

(** The number of places of a body that hold an instruction of the plan. *)
Definition planned_occurrences (prints : gmap ref Expr) (l : list ref) : nat :=
  length (filter (λ inst, is_Some (prints !! inst)) l).

(** Every address of a body is the address of an instruction of the store. *)
Definition body_live (h : Heap) (l : list ref) : Prop :=
  Forall (λ inst, inst < length (insts h)) l.

Module MoreExamples.

(** As [Examples.interp], but [y] is known to be 5. *)
Definition resolving : Interp :=
  {| infer_constant := λ v,
       if String.eqb (name v) "y" then Ok (PyInt 5)
       else infer_constant Examples.interp v |}.

(** As [Examples.interp], but the inference of [boom] raises a TypeError. *)
Definition failing : Interp :=
  {| infer_constant := λ v,
       if String.eqb (name v) "boom" then Raise (OtherError "TypeError")
       else infer_constant Examples.interp v |}.

(** A body that holds the instruction object [r = print(1, 2)] twice. *)
Definition twice : Heap :=
  {| insts := [ Assign (VExpr Examples.print_1_2) (Examples.var "r")
                  (Examples.at_line 1);
                Return (Examples.var "r") (Examples.at_line 2) ];
     blocks := [ {| scope := 0; body := [0; 0; 1];
                    block_loc := Examples.at_line 1 |} ] |}.

Definition boom_1 : Expr := Examples.call "boom" [Examples.var "$const1"] [] 2.
Definition print_2 : Expr := Examples.call "print" [Examples.var "$const2"] [] 3.

(** [r = print(1, 2); v = boom(1); s = print(2)] *)
Definition boom_call : Heap :=
  {| insts := [ Assign (VExpr Examples.print_1_2) (Examples.var "r")
                  (Examples.at_line 1);
                Assign (VExpr boom_1) (Examples.var "v") (Examples.at_line 2);
                Assign (VExpr print_2) (Examples.var "s")
                  (Examples.at_line 3) ];
     blocks := [ {| scope := 0; body := [0; 1; 2];
                    block_loc := Examples.at_line 1 |} ] |}.

(** [print(1, boom, 2)], not yet annotated. *)
Definition boom_node : Heap :=
  {| insts := [ Print [Examples.var "$const1"; Examples.var "boom";
                       Examples.var "$const2"] None ∅ (Examples.at_line 1) ];
     blocks := [ {| scope := 0; body := [0];
                    block_loc := Examples.at_line 1 |} ] |}.

(** [print(1, y)] annotated with {0: 1}, and [print(2)] not yet annotated. *)
Definition half : Heap :=
  {| insts := [ Print [Examples.var "$const1"; Examples.var "y"] None
                  {[ 0 := PyInt 1 ]} (Examples.at_line 1);
                Print [Examples.var "$const2"] None ∅ (Examples.at_line 2);
                Return (Examples.var "r") (Examples.at_line 3) ];
     blocks := [ {| scope := 0; body := [0; 1; 2];
                    block_loc := Examples.at_line 1 |} ] |}.

(** [half] without its second instruction: every Print node is annotated. *)
Definition annotated : Heap :=
  {| insts := insts half;
     blocks := [ {| scope := 0; body := [0; 2];
                    block_loc := Examples.at_line 1 |} ] |}.

(** [p = print; n = 1; q = r.attr]: a global, a constant and an expression
    that is no call. *)
Definition no_call : Heap :=
  {| insts := [ Assign (VGlobal "print" BuiltinPrint (Examples.at_line 1))
                  (Examples.var "p") (Examples.at_line 1);
                Assign (VConst (PyInt 1) (Examples.at_line 2))
                  (Examples.var "n") (Examples.at_line 2);
                Assign (VExpr {| op := "getattr"; func := Examples.var "print";
                                 args := []; kws := []; vararg := None;
                                 loc := Examples.at_line 3 |})
                  (Examples.var "q") (Examples.at_line 3) ];
     blocks := [ {| scope := 0; body := [0; 1; 2];
                    block_loc := Examples.at_line 1 |} ] |}.

(** [u = f(1); r = print(1, 2)]: the call whose callee is unknown comes
    first. *)
Definition f_first : Heap :=
  {| insts := [ Assign (VExpr Examples.f_1) (Examples.var "u")
                  (Examples.at_line 1);
                Assign (VExpr Examples.print_1_2) (Examples.var "r")
                  (Examples.at_line 2) ];
     blocks := [ {| scope := 0; body := [0; 1];
                    block_loc := Examples.at_line 1 |} ] |}.

(** [print(y, 1); print(2)], not yet annotated: the unknown argument comes
    first. *)
Definition y_first : Heap :=
  {| insts := [ Print [Examples.var "y"; Examples.var "$const1"] None ∅
                  (Examples.at_line 1);
                Print [Examples.var "$const2"] None ∅ (Examples.at_line 2) ];
     blocks := [ {| scope := 0; body := [0; 1];
                    block_loc := Examples.at_line 1 |} ] |}.

End MoreExamples.

(** ** RewritePrintCalls.match *)

Section for_each.
Context {S A : Type}.

Lemma for_each_app (f : S → A → result S) l1 l2 s :
  for_each f (l1 ++ l2) s = (s' ← for_each f l1 s; for_each f l2 s').
Proof.
  revert s. induction l1 as [|x l1 IH]; intros s; simpl; [done|].
  destruct (f s x); simpl; [apply IH | done].
Qed.

Lemma for_each_cons (f : S → A → result S) x l s :
  for_each f (x :: l) s = (s' ← f s x; for_each f l s').
Proof. done. Qed.

Lemma bind_Ok {B} (a : S) (k : S → result B) : (Ok a ≫= k) = k a.
Proof. done. Qed.

(** A loop whose turns leave the state as it is. *)
Lemma for_each_skip (f : S → A → result S) l s :
  Forall (λ x, ∀ s, f s x = Ok s) l → for_each f l s = Ok s.
Proof.
  induction 1 as [|x l Hx _ IH]; simpl; [done|]. rewrite Hx. apply IH.
Qed.
End for_each.

Section print_calls_match.
Variable interp : Interp.
Variable h : Heap.

Import RewritePrintCalls.

Lemma match_inst_print_call prints inst :
  match_inst interp h prints inst
  = (o ← print_call interp h inst;
     Ok (from_option (λ expr, <[inst := expr]> prints) prints o)).
Proof.
  unfold match_inst, print_call.
  destruct (insts h !! inst) as [[[expr| | |] ? ?| | |]|]; try done.
  destruct (String.eqb (op expr) "call"); [|done].
  destruct (truthy_list (kws expr)); simpl; [done|].
  destruct (infer_constant interp (func expr)) as [callee|[]]; simpl; try done.
  by destruct (is_print callee).
Qed.

Lemma print_call_Some inst expr :
  print_call interp h inst = Ok (Some expr) ↔ is_print_call interp h inst expr.
Proof.
  unfold print_call, is_print_call. split.
  - destruct (insts h !! inst) as [[[e| | |] target lc| | |]|]; try done.
    destruct (String.eqb (op e) "call") eqn:Hop; [|done].
    apply String.eqb_eq in Hop.
    destruct (kws e) eqn:Hkws; simpl; [|done].
    destruct (infer_constant interp (func e)) as [[]|[]] eqn:Hi; simpl;
      try done.
    intros [= ->]. eauto 10.
  - intros (target & lc & -> & Hop & -> & ->).
    apply String.eqb_eq in Hop. by rewrite Hop.
Qed.

Lemma print_call_is_Assign inst expr :
  print_call interp h inst = Ok (Some expr) →
  ∃ target lc, insts h !! inst = Some (Assign (VExpr expr) target lc).
Proof. rewrite print_call_Some. intros (?&?&?&_). eauto. Qed.

(** The plan after the loop: the entries found in [l], over the entries the
    loop started with. *)
Lemma for_each_match_inst l prints prints' :
  for_each (match_inst interp h) l prints = Ok prints' →
  Forall (λ inst, ∃ o, print_call interp h inst = Ok o) l ∧
  ∀ inst expr,
    prints' !! inst = Some expr ↔
      (inst ∈ l ∧ print_call interp h inst = Ok (Some expr)) ∨
      (¬ (inst ∈ l ∧ ∃ e, print_call interp h inst = Ok (Some e)) ∧
       prints !! inst = Some expr).
Proof.
  revert prints. induction l as [|x l IH]; intros prints; simpl.
  - intros [= <-]. split; [constructor|]. intros inst expr. split.
    + intros ?. right. split; [|done]. intros [[]%elem_of_nil _].
    + intros [[[]%elem_of_nil _]|[_ ?]]. done.
  - rewrite match_inst_print_call.
    destruct (print_call interp h x) as [o|] eqn:Hx; simpl; [|done].
    intros Hl. apply IH in Hl as [Hall Hl]. split; [constructor; eauto|].
    intros inst expr. rewrite Hl. clear Hl IH. rewrite !elem_of_cons.
    destruct (decide (inst = x)) as [->|Hne].
    + destruct o as [e|]; simpl.
      * rewrite lookup_insert_eq. rewrite Hx. split.
        -- intros [[? [= ->]]|[Hn [= ->]]]; left; eauto.
        -- intros [[_ [= ->]]|[[] _]]; [|eauto].
           destruct (decide (x ∈ l)); [left; done|right].
           split; [|done]. intros [? _]. done.
      * rewrite Hx. split.
        -- intros [[_ [=]]|[_ ?]]. right. split; [|done]. intros [_ [? [=]]].
        -- intros [[_ [=]]|[_ ?]]. right. split; [|done]. intros [_ [? [=]]].
    + assert (from_option (λ e, <[x := e]> prints) prints o !! inst
              = prints !! inst) as ->.
      { destruct o; simpl; [by rewrite lookup_insert_ne|done]. }
      split.
      * intros [[? ?]|[Hn ?]]; [left; eauto|right]. split; [|done].
        intros [[?|?] ?]; [done|]. apply Hn. eauto.
      * intros [[[?|?] ?]|[Hn ?]]; [done|left; eauto|right]. split; [|done].
        intros [? ?]. apply Hn. eauto.
Qed.

Lemma for_each_match_inst_Ok l prints :
  Forall (λ inst, ∃ o, print_call interp h inst = Ok o) l →
  ∃ prints', for_each (match_inst interp h) l prints = Ok prints'.
Proof.
  intros Hall. revert prints.
  induction Hall as [|x l [o Hx] _ IH]; intros prints; simpl; [eauto|].
  rewrite match_inst_print_call, Hx. simpl. apply IH.
Qed.

Lemma elem_of_find_insts block cls inst :
  inst ∈ find_insts h block cls ↔
    inst ∈ block_body h block ∧
    ∃ i, insts h !! inst = Some i ∧ isinstance i cls = true.
Proof.
  unfold find_insts. rewrite !list_elem_of_In, filter_In, <-list_elem_of_In.
  split; intros [? Hi]; (split; [done|]).
  - destruct (insts h !! inst); [eauto|done].
  - destruct Hi as (i & -> & ?). done.
Qed.

(** The plan of [match]: exactly the trigger instructions of the block. *)
Lemma match_prints block self found :
  match_ interp h block = Ok (self, found) →
  RewritePrintCalls.block self = block ∧
  found = Nat.ltb 0 (size (prints self)) ∧
  ∀ inst expr,
    prints self !! inst = Some expr ↔
      inst ∈ block_body h block ∧ print_call interp h inst = Ok (Some expr).
Proof.
  unfold match_.
  destruct (for_each _ _ _) as [p|] eqn:Hp; simpl; [|done].
  intros [= <- <-]. simpl. split; [done|]. split; [done|].
  apply for_each_match_inst in Hp as [_ Hp].
  intros inst expr. rewrite Hp, elem_of_find_insts. split.
  - intros [[[? _] ?]|[_ ?]]; done.
  - intros [? Hc]. left. split; [|done]. split; [done|].
    apply print_call_is_Assign in Hc as (?&?&->). eauto.
Qed.

Lemma print_call_total inst :
  only_inference_errors interp → ∃ o, print_call interp h inst = Ok o.
Proof.
  intros Herr. unfold print_call.
  destruct (insts h !! inst) as [[[e| | |] ? ?| | |]|]; eauto.
  destruct (_ && _); eauto.
  destruct (infer_constant interp (func e)) as [c|e'] eqn:Hi; eauto.
  apply Herr in Hi as ->. eauto.
Qed.

Lemma match_total block :
  only_inference_errors interp →
  ∃ self found, match_ interp h block = Ok (self, found).
Proof.
  intros Herr. unfold match_.
  destruct (for_each_match_inst_Ok (find_insts h block AssignCls) ∅)
    as [p ->]; simpl; [|eauto].
  apply Forall_forall. intros inst _. by apply print_call_total.
Qed.

Lemma size_pos_lookup {V} (m : gmap ref V) :
  Nat.ltb 0 (size m) = true ↔ ∃ k v, m !! k = Some v.
Proof.
  rewrite Nat.ltb_lt. split.
  - intros Hs. destruct (map_choose m) as (k & v & ?); [|eauto].
    intros ->. rewrite map_size_empty in Hs. lia.
  - intros (k & v & Hk). destruct (decide (size m = 0)) as [H0|]; [|lia].
    apply map_size_empty_iff in H0 as ->. by rewrite lookup_empty in Hk.
Qed.

End print_calls_match.

(** ** RewritePrintCalls.apply *)

Lemma alter_last {A} (f : A → A) (l : list A) (x : A) :
  alter f (length l) (l ++ [x]) = l ++ [f x].
Proof.
  replace (length l) with (length l + 0) by lia.
  by rewrite (alter_app_r f l [x] 0).
Qed.

Section print_calls_apply.
Import RewritePrintCalls.

Variable self : RewritePrintCalls.self.
Variable old : list Inst.
Variable bs : list Block.
Variable blk : Block.

Lemma plan_live_cons inst l : plan_live self old (inst :: l) → plan_live self old l.
Proof. intros H r e Hr. apply H. by right. Qed.

Lemma apply_inst_print news out inst expr value target lc :
  prints self !! inst = Some expr →
  old !! inst = Some (Assign value target lc) →
  apply_inst self (length bs)
    {| insts := old ++ news; blocks := bs ++ [set_body out blk] |} inst
  = Ok {| insts := old ++ news
                   ++ [Print (args expr) (vararg expr) ∅ (loc expr);
                       Assign (VConst PyNone (loc expr)) target lc];
          blocks := bs ++ [set_body
            (out ++ [length old + length news;
                     S (length old + length news)]) blk] |}.
Proof.
  intros Hp Hold. unfold apply_inst. rewrite Hp. simpl.
  rewrite alter_last. simpl.
  assert (((old ++ news) ++ [Print (args expr) (vararg expr) ∅ (loc expr)])
            !! inst = Some (Assign value target lc)) as ->.
  { rewrite <-app_assoc. by apply lookup_app_l_Some. }
  unfold Block_append, set_body. simpl. rewrite alter_last. simpl.
  rewrite <-!app_assoc. simpl. rewrite !length_app. simpl.
  by replace (length old + (length news + 1))
    with (S (length old + length news)) by lia.
Qed.

Lemma apply_inst_keep news out inst :
  prints self !! inst = None →
  apply_inst self (length bs)
    {| insts := old ++ news; blocks := bs ++ [set_body out blk] |} inst
  = Ok {| insts := old ++ news;
          blocks := bs ++ [set_body (out ++ [inst]) blk] |}.
Proof.
  intros Hp. unfold apply_inst. rewrite Hp.
  unfold Block_append, set_body. simpl. by rewrite alter_last.
Qed.

Lemma apply_loop l : ∀ news out,
  plan_live self old l →
  for_each (apply_inst self (length bs)) l
    {| insts := old ++ news; blocks := bs ++ [set_body out blk] |}
  = Ok {| insts := old ++ news ++ new_nodes (prints self) old l;
          blocks := bs ++ [set_body
            (out ++ new_body (prints self) (length old + length news) l)
            blk] |}.
Proof.
  induction l as [|inst l IH]; intros news out Hlive.
  - simpl. by rewrite !app_nil_r.
  - rewrite for_each_cons.
    destruct (prints self !! inst) as [expr|] eqn:Hp.
    + destruct (Hlive inst expr) as (value & target & lc & Hold);
        [by left|done|].
      rewrite (apply_inst_print _ _ _ _ _ _ _ Hp Hold), bind_Ok.
      rewrite IH by (by eapply plan_live_cons).
      simpl. rewrite Hp, Hold. rewrite <-!app_assoc. simpl.
      rewrite !length_app. simpl.
      by replace (length old + (length news + 2))
        with (S (S (length old + length news))) by lia.
    + rewrite (apply_inst_keep _ _ _ Hp), bind_Ok.
      rewrite IH by (by eapply plan_live_cons).
      simpl. rewrite Hp. rewrite <-!app_assoc. simpl.
      by destruct (old !! inst) as [[]|].
Qed.

End print_calls_apply.

Section print_calls_rewritten.
Import RewritePrintCalls.

Variable self : RewritePrintCalls.self.
Variable h : Heap.

Local Abbreviation live := (plan_live self (insts h)).

(** [apply] in closed form. *)
Lemma apply_Ok blk :
  blocks h !! block self = Some blk →
  live (body blk) →
  apply self h
  = Ok ({| insts := insts h ++ new_nodes (prints self) (insts h) (body blk);
           blocks := blocks h ++ [set_body
             (new_body (prints self) (length (insts h)) (body blk)) blk] |},
        length (blocks h)).
Proof.
  intros Hblk Hlive. unfold apply, Block_copy. rewrite Hblk.
  cbn [mbind result_bind]. unfold Block_clear. cbn [insts blocks].
  rewrite alter_last. unfold block_body at 1. cbn [blocks].
  rewrite (lookup_app_l_Some _ _ _ _ Hblk).
  pose proof (apply_loop self (insts h) (blocks h) blk (body blk) [] [] Hlive)
    as Hloop.
  rewrite !app_nil_r, Nat.add_0_r in Hloop. simpl in Hloop.
  unfold set_body at 1. simpl.
  unfold set_body at 1 in Hloop. simpl in Hloop.
  by rewrite Hloop.
Qed.

Lemma live_app l1 l2 : live (l1 ++ l2) → live l1 ∧ live l2.
Proof.
  intros H. split; intros r e Hr; apply H; rewrite elem_of_app; eauto.
Qed.

Lemma new_nodes_app l1 l2 :
  new_nodes (prints self) (insts h) (l1 ++ l2)
  = new_nodes (prints self) (insts h) l1
    ++ new_nodes (prints self) (insts h) l2.
Proof.
  induction l1 as [|r l1 IH]; simpl; [done|].
  destruct (prints self !! r); [|done].
  destruct (insts h !! r) as [[]|]; simpl; by rewrite ?IH.
Qed.

Lemma new_body_app l1 l2 : ∀ n,
  live l1 →
  new_body (prints self) n (l1 ++ l2)
  = new_body (prints self) n l1
    ++ new_body (prints self)
         (n + length (new_nodes (prints self) (insts h) l1)) l2.
Proof.
  induction l1 as [|r l1 IH]; intros n Hlive; simpl.
  - by rewrite Nat.add_0_r.
  - destruct (prints self !! r) as [e|] eqn:Hp.
    + destruct (Hlive r e) as (v & t & lc & ->); [by left|done|].
      simpl. rewrite IH by (by eapply plan_live_cons).
      do 3 f_equal. f_equal. lia.
    + rewrite IH by (by eapply plan_live_cons). done.
Qed.

Lemma new_nodes_new l :
  Forall is_new_node (new_nodes (prints self) (insts h) l).
Proof.
  induction l as [|r l IH]; simpl; [constructor|].
  destruct (prints self !! r); [|done].
  destruct (insts h !! r) as [[]|]; try done.
  by repeat constructor.
Qed.

(** The addresses of the new body: those kept from the old body, and new
    ones. *)
Lemma elem_of_new_body l n x :
  x ∈ new_body (prints self) n l →
  (x ∈ l ∧ prints self !! x = None) ∨ n ≤ x.
Proof.
  revert n. induction l as [|r l IH]; intros n; simpl.
  - intros []%elem_of_nil.
  - destruct (prints self !! r) eqn:Hp.
    + rewrite !elem_of_cons. intros [->|[->|Hx]]; [right; lia..|].
      apply IH in Hx as [[? ?]|?]; [left|right; lia].
      split; [by right|done].
    + rewrite elem_of_cons. intros [->|Hx]; [left; split; [by left|done]|].
      apply IH in Hx as [[? ?]|?]; [left|by right].
      split; [by right|done].
Qed.

Lemma new_body_Rewritten h' l : ∀ before after,
  live l →
  insts h' = insts h ++ before
             ++ new_nodes (prints self) (insts h) l ++ after →
  Rewritten (prints self) h h' l
    (new_body (prints self) (length (insts h) + length before) l).
Proof.
  induction l as [|r l IH]; intros before after Hlive Hh'; simpl.
  - constructor.
  - destruct (prints self !! r) as [e|] eqn:Hp.
    + destruct (Hlive r e) as (v & t & lc & Hr); [by left|done|].
      simpl in Hh'. rewrite Hp, Hr in Hh'. simpl in Hh'.
      eapply (Rewritten_print _ _ _ r e v t lc); try done.
      * apply lookup_ge_None. lia.
      * apply lookup_ge_None. lia.
      * rewrite Hh', app_assoc, <-length_app.
        by apply list_lookup_middle.
      * rewrite Hh'.
        rewrite (app_assoc (insts h)), <-length_app.
        change (?x :: ?y :: ?z) with ([x] ++ y :: z).
        rewrite (app_assoc _ [_]).
        replace (S (length (insts h ++ before)))
          with (length ((insts h ++ before)
                  ++ [Print (args e) (vararg e) ∅ (loc e)])).
        -- by apply list_lookup_middle.
        -- rewrite !length_app. simpl. lia.
      * replace (S (S (length (insts h) + length before)))
          with (length (insts h) + length (before
                  ++ [Print (args e) (vararg e) ∅ (loc e);
                      Assign (VConst PyNone (loc e)) t lc])).
        -- eapply IH; [by eapply plan_live_cons|].
           rewrite Hh', <-!app_assoc. done.
        -- rewrite length_app. simpl. lia.
    + constructor; [done|].
      eapply IH; [by eapply plan_live_cons|].
      rewrite Hh'. simpl. rewrite Hp. done.
Qed.

(** The instructions that are kept are a subsequence of the new body, in
    the order they had. *)
Lemma Rewritten_sublist h' l l' :
  Rewritten (prints self) h h' l l' →
  filter (λ inst, prints self !! inst = None) l `sublist_of` l'.
Proof.
  induction 1 as [|r l l' Hp _ IH|r e v t lc pn an l l' Hp _ _ _ _ _ _ IH].
  - constructor.
  - rewrite filter_cons_True by done. by constructor.
  - rewrite filter_cons_False by (by rewrite Hp).
    by do 2 apply sublist_cons.
Qed.

End print_calls_rewritten.

Lemma Rewritten_app_inv prints h h' l1 l2 l' :
  Rewritten prints h h' (l1 ++ l2) l' →
  ∃ l1' l2', l' = l1' ++ l2' ∧
    Rewritten prints h h' l1 l1' ∧ Rewritten prints h h' l2 l2'.
Proof.
  revert l'. induction l1 as [|r l1 IH]; intros l'; simpl.
  - intros H. exists [], l'. split; [done|]. split; [constructor|done].
  - inversion 1 as [|? ? l0 Hp Hrest|? e v t lc pn an ? l0 Hp Hr Hpn Han Hpn' Han' Hrest];
      subst; apply IH in Hrest as (l1' & l2' & -> & H1 & H2).
    + exists (r :: l1'), l2'. split; [done|]. split; [by constructor|done].
    + exists (pn :: an :: l1'), l2'. split; [done|].
      split; [by econstructor|done].
Qed.

Section print_calls_cycle.
Import RewritePrintCalls.

Variable interp : Interp.
Variable h : Heap.
Variable b : ref.
Variable self : RewritePrintCalls.self.
Variable found : bool.
Hypothesis Hmatch : match_ interp h b = Ok (self, found).

Lemma match_block : block self = b.
Proof. by apply match_prints in Hmatch as (? & _). Qed.

Lemma match_plan inst expr :
  prints self !! inst = Some expr ↔
    inst ∈ block_body h b ∧ is_print_call interp h inst expr.
Proof.
  apply match_prints in Hmatch as (_ & _ & Hp).
  by rewrite Hp, print_call_Some.
Qed.

Lemma match_found :
  found = true ↔
    ∃ inst expr, inst ∈ block_body h b ∧ is_print_call interp h inst expr.
Proof.
  pose proof Hmatch as (_ & Hf & _)%match_prints.
  rewrite Hf, size_pos_lookup. split; intros (inst & expr & H); exists inst, expr.
  - by apply match_plan.
  - by apply match_plan.
Qed.

(** [match] has looked at every instruction of the block without raising. *)
Lemma match_probed inst :
  inst ∈ block_body h b → ∃ o, print_call interp h inst = Ok o.
Proof.
  intros Hin. revert Hmatch. unfold match_.
  destruct (for_each _ _ _) as [p|] eqn:Hp; simpl; [|done]. intros _.
  apply for_each_match_inst in Hp as [Hall _].
  rewrite Forall_forall in Hall.
  destruct (insts h !! inst) as [i|] eqn:Hi.
  - destruct (isinstance i AssignCls) eqn:Hcls.
    + apply Hall, elem_of_find_insts. eauto.
    + exists None. unfold print_call. rewrite Hi. by destruct i.
  - exists None. unfold print_call. by rewrite Hi.
Qed.

Lemma match_unplanned inst :
  inst ∈ block_body h b → prints self !! inst = None →
  print_call interp h inst = Ok None.
Proof.
  intros Hin Hp. destruct (match_probed inst Hin) as [[e|] Ho]; [|done].
  assert (prints self !! inst = Some e) as Hp'; [|congruence].
  apply match_plan. split; [done|]. by apply print_call_Some.
Qed.

Lemma match_live l : plan_live self (insts h) l.
Proof.
  intros inst expr _ (_ & t & lc & Hi & _)%match_plan. eauto.
Qed.

Lemma match_true_block :
  found = true → ∃ blk, blocks h !! b = Some blk.
Proof.
  intros (inst & _ & Hin & _)%match_found. unfold block_body in Hin.
  destruct (blocks h !! b); [eauto|]. by apply elem_of_nil in Hin.
Qed.

Lemma apply_after_match blk :
  blocks h !! b = Some blk →
  apply self h = Ok (applied self h blk, length (blocks h)).
Proof.
  intros Hblk. apply apply_Ok; [by rewrite match_block|apply match_live].
Qed.

Lemma applied_extends blk : extends h (applied self h blk).
Proof.
  split; intros x y Hx; simpl; by apply lookup_app_l_Some.
Qed.

Lemma applied_body blk :
  block_body (applied self h blk) (length (blocks h))
  = new_body (prints self) (length (insts h)) (body blk).
Proof.
  unfold block_body, applied. simpl.
  by rewrite list_lookup_middle.
Qed.

Lemma applied_Rewritten blk :
  Rewritten (prints self) h (applied self h blk) (body blk)
    (new_body (prints self) (length (insts h)) (body blk)).
Proof.
  pose proof (new_body_Rewritten self h (applied self h blk) (body blk)
                [] [] (match_live _)) as H.
  simpl in H. rewrite Nat.add_0_r in H. apply H. by rewrite app_nil_r.
Qed.

(** Nothing in the new block is a trigger: the instructions kept were
    none, and the new ones are Print nodes and assignments of None. *)
Lemma applied_no_print_call blk inst :
  blocks h !! b = Some blk →
  inst ∈ new_body (prints self) (length (insts h)) (body blk) →
  print_call interp (applied self h blk) inst = Ok None.
Proof.
  intros Hblk Hin.
  destruct (decide (inst < length (insts h))) as [Hlt|Hge].
  - apply elem_of_new_body in Hin as [[Hin Hp]|?]; [|lia].
    rewrite <-(match_unplanned inst); [| |done].
    + unfold print_call, applied. simpl. by rewrite lookup_app_l.
    + unfold block_body. by rewrite Hblk.
  - unfold print_call.
    destruct (insts (applied self h blk) !! inst) as [i|] eqn:Hi; [|done].
    simpl in Hi. rewrite lookup_app_r in Hi by lia.
    pose proof (new_nodes_new self h (body blk)) as Hnew.
    rewrite Forall_forall in Hnew.
    apply list_elem_of_lookup_2, Hnew in Hi.
    by destruct i as [[]| | |].
Qed.

Lemma rematch_false blk :
  blocks h !! b = Some blk →
  match_ interp (applied self h blk) (length (blocks h))
  = Ok ({| prints := ∅; block := length (blocks h) |}, false).
Proof.
  intros Hblk. unfold match_.
  rewrite for_each_skip; [done|].
  apply Forall_forall. intros inst Hin p.
  apply elem_of_find_insts in Hin as [Hin _].
  rewrite applied_body in Hin.
  rewrite match_inst_print_call, applied_no_print_call; done.
Qed.

End print_calls_cycle.

(** ** DetectConstPrintArguments.match *)

Lemma truthy_dict_false {V} (m : gmap nat V) : truthy_dict m = false ↔ m = ∅.
Proof.
  unfold truthy_dict. rewrite negb_false_iff, Nat.eqb_eq.
  apply map_size_empty_iff.
Qed.

Lemma truthy_dict_true {V} (m : gmap nat V) : truthy_dict m = true ↔ m ≠ ∅.
Proof.
  rewrite <-truthy_dict_false. by destruct (truthy_dict m).
Qed.

Lemma truthy_dict_insert {V} (m : gmap nat V) i x :
  truthy_dict (<[i := x]> m) = true.
Proof. apply truthy_dict_true, insert_non_empty. Qed.

Section const_args.
Variable interp : Interp.

Lemma const_args_lookup args : ∀ n m i const,
  const_args interp n args = Ok m →
  m !! i = Some const ↔
    ∃ var, n ≤ i ∧ args !! (i - n) = Some var ∧
           infer_constant interp var = Ok const.
Proof.
  induction args as [|var args IH]; intros n m i const; simpl.
  - intros [= <-]. rewrite lookup_empty. split; [done|].
    by intros (? & _ & ? & _).
  - assert (∀ m', const_args interp (S n) args = Ok m' →
              (m' !! i = Some const ↔
               ∃ var', S n ≤ i ∧ (var :: args) !! (i - n) = Some var' ∧
                       infer_constant interp var' = Ok const)) as Htail.
    { intros m' Hm'. rewrite (IH _ _ i const Hm').
      split; intros (var' & Hle & Hl & Hv); exists var'.
      - split; [done|]. split; [|done].
        replace (i - n) with (S (i - S n)) by lia. done.
      - split; [done|]. split; [|done].
        replace (i - n) with (S (i - S n)) in Hl by lia. done. }
    destruct (infer_constant interp var) as [c|[]] eqn:Hvar; try done.
    + destruct (const_args interp (S n) args) as [m'|] eqn:Hm'; [|done].
      simpl. intros [= <-]. destruct (decide (i = n)) as [->|Hne].
      * rewrite lookup_insert_eq, Nat.sub_diag. simpl. split.
        -- intros [= <-]. eauto.
        -- intros (? & _ & [= <-] & Hv). congruence.
      * rewrite lookup_insert_ne by done. rewrite (Htail m' eq_refl).
        split; intros (var' & Hle & Hl & Hv); exists var'.
        -- split; [lia|done].
        -- split; [lia|done].
    + intros Hm. rewrite (Htail m Hm).
      split; intros (var' & Hle & Hl & Hv).
      * exists var'. split; [lia|done].
      * destruct (decide (i = n)) as [->|].
        -- rewrite Nat.sub_diag in Hl. simpl in Hl. congruence.
        -- exists var'. split; [lia|done].
Qed.

Lemma const_args_lookup_lt args n m i :
  const_args interp n args = Ok m → i < n → m !! i = None.
Proof.
  intros Hm Hlt. destruct (m !! i) as [c|] eqn:Hi; [|done].
  apply (const_args_lookup _ _ _ _ _ Hm) in Hi as (? & ? & _). lia.
Qed.

Lemma const_args_total args n :
  only_inference_errors interp → ∃ m, const_args interp n args = Ok m.
Proof.
  intros Herr. revert n. induction args as [|var args IH]; intros n; simpl.
  - eauto.
  - destruct (IH (S n)) as [m Hm]. rewrite Hm.
    destruct (infer_constant interp var) as [c|e] eqn:Hv; simpl; [eauto|].
    apply Herr in Hv as ->. eauto.
Qed.

Import DetectConstPrintArguments.

Lemma record_consts_insert inst n c m consts :
  m !! n = None →
  record_consts inst m
    (<[inst := <[n := c]> (default ∅ (consts !! inst))]> consts)
  = record_consts inst (<[n := c]> m) consts.
Proof.
  intros Hn. unfold record_consts. rewrite truthy_dict_insert.
  destruct (truthy_dict m) eqn:Hm.
  - rewrite lookup_insert_eq, insert_insert_eq. simpl. f_equal.
    by rewrite <-insert_union_r, <-insert_union_l.
  - apply truthy_dict_false in Hm as ->.
    by rewrite <-insert_union_l, (left_id_L ∅ (∪)).
Qed.

(** The inner loop of [match]. *)
Lemma for_each_match_arg inst args : ∀ n consts,
  for_each (match_arg interp inst) (enumerate_from n args) consts
  = (m ← const_args interp n args; Ok (record_consts inst m consts)).
Proof.
  induction args as [|var args IH]; intros n consts; simpl; [done|].
  destruct (infer_constant interp var) as [c|[]] eqn:Hv; simpl; try done.
  rewrite IH.
  destruct (const_args interp (S n) args) as [m|] eqn:Hm; simpl; [|done].
  f_equal. apply record_consts_insert.
  eapply const_args_lookup_lt; [done|lia].
Qed.

Variable h : Heap.

Lemma match_inst_print_consts consts inst :
  match_inst interp h consts inst
  = (m ← print_consts interp h inst; Ok (record_consts inst m consts)).
Proof.
  unfold match_inst, print_consts.
  destruct (insts h !! inst) as [[|args ? c ?| |]|]; try done.
  destruct (truthy_dict c); [done|]. apply for_each_match_arg.
Qed.

Lemma for_each_match_consts l : ∀ seen consts consts',
  (∀ inst, consts !! inst
           = if decide (inst ∈ seen) then plan_entry interp h inst else None) →
  for_each (match_inst interp h) l consts = Ok consts' →
  Forall (λ inst, ∃ m, print_consts interp h inst = Ok m) l ∧
  ∀ inst, consts' !! inst
          = if decide (inst ∈ seen ++ l) then plan_entry interp h inst else None.
Proof.
  induction l as [|x l IH]; intros seen consts consts' Hinv; simpl.
  - intros [= <-]. split; [constructor|]. by rewrite app_nil_r.
  - rewrite match_inst_print_consts.
    destruct (print_consts interp h x) as [m|] eqn:Hx; simpl; [|done].
    intros Hl. apply (IH (seen ++ [x])) in Hl as [Hall Hl].
    + split; [constructor; eauto|]. intros inst. rewrite Hl.
      by rewrite <-app_assoc.
    + intros inst. unfold record_consts.
      assert (plan_entry interp h x = if truthy_dict m then Some m else None) as Hpx.
      { unfold plan_entry. by rewrite Hx. }
      destruct (decide (inst = x)) as [->|Hne].
      * rewrite decide_True by (apply elem_of_app; right; by left).
        rewrite Hpx. destruct (truthy_dict m) eqn:Hm.
        -- rewrite lookup_insert_eq, Hinv. f_equal.
           destruct (decide (x ∈ seen)); simpl.
           ++ rewrite Hpx. simpl. apply (idemp_L (∪)).
           ++ apply (right_id_L ∅ (∪)).
        -- rewrite Hinv. by destruct (decide (x ∈ seen)).
      * assert ((if truthy_dict m
                 then <[x := m ∪ default ∅ (consts !! x)]> consts
                 else consts) !! inst = consts !! inst) as ->.
        { destruct (truthy_dict m); [by rewrite lookup_insert_ne|done]. }
        rewrite Hinv. destruct (decide (inst ∈ seen)) as [Hs|Hs].
        -- rewrite decide_True; [done|]. apply elem_of_app. by left.
        -- rewrite decide_False; [done|].
           rewrite elem_of_app, list_elem_of_singleton. tauto.
Qed.

Lemma for_each_match_consts_Ok l consts :
  Forall (λ inst, ∃ m, print_consts interp h inst = Ok m) l →
  ∃ consts', for_each (match_inst interp h) l consts = Ok consts'.
Proof.
  intros Hall. revert consts.
  induction Hall as [|x l [m Hx] _ IH]; intros consts; simpl; [eauto|].
  rewrite match_inst_print_consts, Hx. simpl. apply IH.
Qed.

Lemma print_consts_total inst :
  only_inference_errors interp → ∃ m, print_consts interp h inst = Ok m.
Proof.
  intros Herr. unfold print_consts.
  destruct (insts h !! inst) as [[|args ? c ?| |]|]; eauto.
  destruct (truthy_dict c); eauto. by apply const_args_total.
Qed.

End const_args.

(** ** DetectConstPrintArguments.apply *)

Lemma set_consts_idemp m i : set_consts m (set_consts m i) = set_consts m i.
Proof. by destruct i. Qed.

Section const_apply.
Import DetectConstPrintArguments.

Variable self : DetectConstPrintArguments.self.

Lemma apply_inst_blocks h inst : blocks (apply_inst self h inst) = blocks h.
Proof. unfold apply_inst. by destruct (consts self !! inst). Qed.

Lemma apply_inst_lookup h (inst r : ref) :
  insts (apply_inst self h inst) !! r
  = match consts self !! r with
    | Some m => if decide (r = inst) then set_consts m <$> insts h !! r
                else insts h !! r
    | None => insts h !! r
    end.
Proof.
  unfold apply_inst. destruct (decide (r = inst)) as [->|Hne].
  - destruct (consts self !! inst) as [m|]; simpl; [|done].
    by rewrite list_lookup_alter_eq.
  - destruct (consts self !! inst) as [m|]; simpl.
    + rewrite list_lookup_alter_ne by done. by destruct (consts self !! r).
    + by destruct (consts self !! r).
Qed.

Lemma apply_loop_blocks l : ∀ h,
  blocks (fold_left (apply_inst self) l h) = blocks h.
Proof.
  induction l as [|x l IH]; intros h; simpl; [done|].
  by rewrite IH, apply_inst_blocks.
Qed.

Lemma apply_loop_lookup (l : list ref) (r : ref) : ∀ h,
  insts (fold_left (apply_inst self) l h) !! r
  = match consts self !! r with
    | Some m => if decide (r ∈ l) then set_consts m <$> insts h !! r
                else insts h !! r
    | None => insts h !! r
    end.
Proof.
  induction l as [|x l IH]; intros h; simpl.
  - destruct (consts self !! r); done.
  - rewrite IH, apply_inst_lookup.
    destruct (consts self !! r) as [m|]; [|done].
    destruct (decide (r = x)) as [->|Hne].
    + rewrite (decide_True (P := x ∈ x :: l)) by (by left).
      destruct (decide (x ∈ l)); [|done].
      destruct (insts h !! x); simpl; [|done]. by rewrite set_consts_idemp.
    + destruct (decide (r ∈ l)).
      * rewrite decide_True; [done|by right].
      * rewrite decide_False; [done|].
        rewrite elem_of_cons. tauto.
Qed.

End const_apply.

Section const_cycle.
Import DetectConstPrintArguments.

Variable interp : Interp.
Variable h : Heap.
Variable b : ref.
Variable self : DetectConstPrintArguments.self.
Variable found : bool.
Hypothesis Hmatch : match_ interp h b = Ok (self, found).

Lemma cmatch_facts :
  block self = b ∧ found = Nat.ltb 0 (size (consts self)) ∧
  Forall (λ inst, ∃ m, print_consts interp h inst = Ok m)
    (find_insts h b PrintCls) ∧
  ∀ inst, consts self !! inst
          = if decide (inst ∈ find_insts h b PrintCls)
            then plan_entry interp h inst else None.
Proof.
  revert Hmatch. unfold match_.
  destruct (for_each _ _ _) as [p|] eqn:Hp; simpl; [|done].
  intros [= <- <-]. simpl. split; [done|]. split; [done|].
  apply (for_each_match_consts interp h _ []) in Hp; [done|].
  intros inst. rewrite lookup_empty, decide_False; [done|].
  apply not_elem_of_nil.
Qed.

Lemma cmatch_block : block self = b.
Proof. apply cmatch_facts. Qed.

Lemma cmatch_probed inst :
  inst ∈ block_body h b → ∃ m, print_consts interp h inst = Ok m.
Proof.
  intros Hin. destruct cmatch_facts as (_ & _ & Hall & _).
  rewrite Forall_forall in Hall.
  destruct (insts h !! inst) as [i|] eqn:Hi.
  - destruct (isinstance i PrintCls) eqn:Hcls.
    + apply Hall, elem_of_find_insts. eauto.
    + exists ∅. unfold print_consts. rewrite Hi. by destruct i.
  - exists ∅. unfold print_consts. by rewrite Hi.
Qed.

Lemma print_consts_nonempty inst m :
  print_consts interp h inst = Ok m → m ≠ ∅ →
  ∃ args vararg inst_loc,
    insts h !! inst = Some (Print args vararg ∅ inst_loc) ∧
    const_args interp 0 args = Ok m.
Proof.
  unfold print_consts. intros Hm Hne.
  destruct (insts h !! inst) as [[|args va c lc| |]|];
    try (by injection Hm as <-).
  destruct (truthy_dict c) eqn:Hc; [by injection Hm as <-|].
  apply truthy_dict_false in Hc as ->. eauto.
Qed.

(** The plan of [match]: the Print nodes of the block with an empty
    mapping and at least one constant argument, each with the constants of
    its arguments. *)
Lemma cmatch_plan inst m :
  consts self !! inst = Some m ↔
    inst ∈ block_body h b ∧ m ≠ ∅ ∧
    ∃ args, is_unannotated_print h inst args ∧
            const_args interp 0 args = Ok m.
Proof.
  destruct cmatch_facts as (_ & _ & _ & ->). unfold plan_entry. split.
  - destruct (decide _) as [Hin|]; [|done].
    apply elem_of_find_insts in Hin as [Hin _].
    destruct (print_consts interp h inst) as [m'|] eqn:Hm'; [|done].
    destruct (truthy_dict m') eqn:Ht; [|done]. intros [= ->].
    apply truthy_dict_true in Ht.
    destruct (print_consts_nonempty _ _ Hm' Ht) as (args & va & lc & ? & ?).
    split; [done|]. split; [done|]. exists args. split; [|done].
    by exists va, lc.
  - intros (Hin & Hne & args & (va & lc & Hi) & Hm).
    rewrite decide_True by (apply elem_of_find_insts; eauto).
    unfold print_consts. rewrite Hi.
    replace (truthy_dict (∅ : gmap nat PyObj)) with false
      by (symmetry; by apply truthy_dict_false).
    rewrite Hm. by apply truthy_dict_true in Hne as ->.
Qed.

Lemma cmatch_found : found = true ↔ ∃ inst m, consts self !! inst = Some m.
Proof.
  destruct cmatch_facts as (_ & -> & _). apply size_pos_lookup.
Qed.

Lemma cmatch_unplanned inst :
  inst ∈ block_body h b → consts self !! inst = None →
  print_consts interp h inst = Ok ∅.
Proof.
  intros Hin Hp. destruct (cmatch_probed inst Hin) as [m Hm]. rewrite Hm.
  destruct (decide (m = ∅)) as [->|Hne]; [done|].
  destruct (print_consts_nonempty _ _ Hm Hne) as (args & va & lc & ? & ?).
  assert (consts self !! inst = Some m) as Hp'; [|congruence].
  apply cmatch_plan. split; [done|]. split; [done|].
  exists args. split; [by exists va, lc|done].
Qed.

(** The store after [apply]. *)
Lemma capply_block : (apply self h).2 = b.
Proof. apply cmatch_block. Qed.

Lemma capply_blocks : blocks (apply self h).1 = blocks h.
Proof. apply apply_loop_blocks. Qed.

Lemma capply_lookup (inst : ref) :
  insts (apply self h).1 !! inst
  = match consts self !! inst with
    | Some m => set_consts m <$> insts h !! inst
    | None => insts h !! inst
    end.
Proof.
  unfold apply. simpl. rewrite apply_loop_lookup.
  destruct (consts self !! inst) as [m|] eqn:Hp; [|done].
  rewrite decide_True; [done|].
  rewrite cmatch_block. by apply cmatch_plan in Hp as [? _].
Qed.

Lemma capply_body : block_body (apply self h).1 b = block_body h b.
Proof. unfold block_body. by rewrite capply_blocks. Qed.

Lemma capply_no_consts (inst : ref) :
  inst ∈ block_body h b →
  print_consts interp (apply self h).1 inst = Ok ∅.
Proof.
  intros Hin. destruct (consts self !! inst) as [m|] eqn:Hp.
  - unfold print_consts. rewrite capply_lookup, Hp.
    apply cmatch_plan in Hp as (_ & Hne & args & (va & lc & ->) & _).
    simpl. by apply truthy_dict_true in Hne as ->.
  - rewrite <-(cmatch_unplanned inst Hin Hp).
    unfold print_consts. by rewrite capply_lookup, Hp.
Qed.

Lemma crematch_false :
  match_ interp (apply self h).1 b = Ok ({| consts := ∅; block := b |}, false).
Proof.
  unfold match_. rewrite for_each_skip; [done|].
  apply Forall_forall. intros inst Hin p.
  apply elem_of_find_insts in Hin as [Hin _]. rewrite capply_body in Hin.
  rewrite match_inst_print_consts, capply_no_consts by done.
  done.
Qed.

End const_cycle.

(** ** The rewritten block *)

Lemma block_body_live h b l :
  block_body h b = l → l ≠ [] → ∃ blk, blocks h !! b = Some blk ∧ body blk = l.
Proof.
  unfold block_body. destruct (blocks h !! b) as [blk|]; [eauto|].
  by intros <-.
Qed.

(** After a [match] on a live block, [apply] returns a new block whose body is
    the old one rewritten; the objects of the old store are as they were. *)
Lemma apply_Rewritten interp h b self found blk :
  RewritePrintCalls.match_ interp h b = Ok (self, found) →
  blocks h !! b = Some blk →
  ∃ h', RewritePrintCalls.apply self h = Ok (h', length (blocks h)) ∧
        Rewritten (RewritePrintCalls.prints self) h h'
          (block_body h b) (block_body h' (length (blocks h))) ∧
        extends h h' ∧
        blocks h' !! length (blocks h)
          = Some (set_body (block_body h' (length (blocks h))) blk).
Proof.
  intros Hmatch Hblk. exists (applied self h blk).
  split; [by eapply apply_after_match|].
  rewrite applied_body. split; [|split].
  - unfold block_body at 1. rewrite Hblk. by eapply applied_Rewritten.
  - apply applied_extends.
  - simpl. by apply list_lookup_middle.
Qed.

Lemma kept_in_place interp h b self found pre inst post :
  RewritePrintCalls.match_ interp h b = Ok (self, found) →
  block_body h b = pre ++ inst :: post →
  RewritePrintCalls.prints self !! inst = None →
  ∃ h' new_block pre' post',
    RewritePrintCalls.apply self h = Ok (h', new_block) ∧
    block_body h' new_block = pre' ++ inst :: post' ∧
    Rewritten (RewritePrintCalls.prints self) h h' pre pre' ∧
    Rewritten (RewritePrintCalls.prints self) h h' post post' ∧
    extends h h'.
Proof.
  intros Hmatch Hbody Hp.
  destruct (block_body_live h b _ Hbody) as (blk & Hblk & _);
    [by destruct pre|].
  destruct (apply_Rewritten _ _ _ _ _ _ Hmatch Hblk)
    as (h' & Happly & Hrw & Hext & _).
  rewrite Hbody in Hrw.
  apply Rewritten_app_inv in Hrw as (pre' & l2 & Hl & Hpre & Hpost).
  inversion Hpost as [|? ? post' _ Hpost'|]; subst; [|congruence].
  by exists h', (length (blocks h)), pre', post'.
Qed.

(** ** Candidates, exceptions and the loop of the driver *)

Lemma const_args_nonempty interp args m :
  const_args interp 0 args = Ok m →
  m ≠ ∅ ↔ ∃ idx var const,
            args !! idx = Some var ∧ infer_constant interp var = Ok const.
Proof.
  intros Hm. split.
  - intros Hne. destruct (map_choose m Hne) as (idx & const & Hi).
    apply (const_args_lookup _ _ _ _ _ _ Hm) in Hi as (var & _ & Hl & Hv).
    rewrite Nat.sub_0_r in Hl. eauto.
  - intros (idx & var & const & Hl & Hv) ->.
    assert ((∅ : gmap nat PyObj) !! idx = Some const) as Hi; [|done].
    apply (const_args_lookup _ _ _ _ _ _ Hm). exists var.
    rewrite Nat.sub_0_r. split; [lia|done].
Qed.

(** A loop raises only what one of its turns raises. *)
Lemma for_each_Raise {S A} (f : S → A → result S) l s e :
  for_each f l s = Raise e → ∃ s' x, x ∈ l ∧ f s' x = Raise e.
Proof.
  revert s. induction l as [|x l IH]; intros s; simpl; [done|].
  destruct (f s x) as [s1|e1] eqn:Hx; simpl.
  - intros (s' & y & Hy & Hf)%IH. exists s', y. split; [by right|done].
  - intros [= ->]. exists s, x. split; [by left|done].
Qed.

Lemma print_calls_match_inst_Raise interp h prints inst e :
  RewritePrintCalls.match_inst interp h prints inst = Raise e →
  e ≠ ConstantInferenceError.
Proof.
  unfold RewritePrintCalls.match_inst.
  destruct (insts h !! inst) as [[[expr| | |] ? ?| | |]|]; try done.
  destruct (String.eqb _ _); [|done]. destruct (truthy_list _); [done|].
  destruct (infer_constant interp (func expr)) as [c|[]]; try done.
  - by destruct (is_print c).
  - by intros [= <-].
  - by intros [= <-].
Qed.

Lemma const_args_match_arg_Raise interp inst consts iv e :
  DetectConstPrintArguments.match_arg interp inst consts iv = Raise e →
  e ≠ ConstantInferenceError.
Proof.
  unfold DetectConstPrintArguments.match_arg. destruct iv as [idx var].
  destruct (infer_constant interp var) as [c|[]]; try done.
  - by intros [= <-].
  - by intros [= <-].
Qed.

Lemma const_args_match_inst_Raise interp h consts inst e :
  DetectConstPrintArguments.match_inst interp h consts inst = Raise e →
  e ≠ ConstantInferenceError.
Proof.
  unfold DetectConstPrintArguments.match_inst.
  destruct (insts h !! inst) as [[|args ? c ?| |]|]; try done.
  destruct (truthy_dict c); [done|].
  intros (? & ? & _ & Hr)%for_each_Raise.
  by eapply const_args_match_arg_Raise.
Qed.

(** The turns of the loop of the driver. *)
Section run_rule.
Context {Self : Type}.
Variable match_ : Heap → ref → result (Self * bool).
Variable apply : Self → Heap → result (Heap * ref).

Lemma run_rule_false fuel h b rule :
  match_ h b = Ok (rule, false) →
  run_rule match_ apply (S fuel) h b = Some (Ok (h, b)).
Proof. intros Hm. simpl. unfold cycle. by rewrite Hm. Qed.

Lemma run_rule_Raise fuel h b e :
  match_ h b = Raise e →
  run_rule match_ apply (S fuel) h b = Some (Raise e).
Proof. intros Hm. simpl. unfold cycle. by rewrite Hm. Qed.

Lemma run_rule_true fuel h b rule h' b' :
  match_ h b = Ok (rule, true) →
  apply rule h = Ok (h', b') →
  run_rule match_ apply (S fuel) h b = run_rule match_ apply fuel h' b'.
Proof.
  intros Hm Ha. simpl. unfold cycle. rewrite Hm. simpl. by rewrite Ha.
Qed.

End run_rule.

(** ** The examples *)

Example match_calls :
  RewritePrintCalls.match_ Examples.interp Examples.calls 0
  = Ok (Examples.calls_plan, true).
Proof. vm_compute. reflexivity. Qed.

Example match_nodes :
  DetectConstPrintArguments.match_ Examples.interp Examples.nodes 0
  = Ok (Examples.nodes_plan, true).
Proof. vm_compute. reflexivity. Qed.

Example apply_calls :
  RewritePrintCalls.apply Examples.calls_plan Examples.calls
  = Ok ({| insts := insts Examples.calls
             ++ [ Print (args Examples.print_1_2) None ∅
                    (loc Examples.print_1_2);
                  Assign (VConst PyNone (loc Examples.print_1_2))
                    (Examples.var "r") (Examples.at_line 1) ];
           blocks := blocks Examples.calls
             ++ [ {| scope := 0; body := [5; 6; 1; 2; 3; 4];
                     block_loc := Examples.at_line 1 |} ] |}, 1).
Proof. vm_compute. reflexivity. Qed.

Example apply_nodes :
  DetectConstPrintArguments.apply Examples.nodes_plan Examples.nodes
  = ({| insts := [ Print [Examples.var "$const1"; Examples.var "y"] None
                     {[ 0 := PyInt 1 ]} (Examples.at_line 1);
                   Print [Examples.var "y"] None ∅ (Examples.at_line 2);
                   Return (Examples.var "r") (Examples.at_line 3) ];
        blocks := blocks Examples.nodes |}, 0).
Proof. vm_compute. reflexivity. Qed.

Lemma interp_only_inference_errors : only_inference_errors Examples.interp.
Proof.
  intros v e. simpl. repeat case_match; congruence.
Qed.

Example match_no_print :
  RewritePrintCalls.match_ Examples.interp Examples.no_print 0
  = Ok ({| RewritePrintCalls.prints := ∅; RewritePrintCalls.block := 0 |},
        false).
Proof. vm_compute. reflexivity. Qed.

Example match_no_const :
  DetectConstPrintArguments.match_ Examples.interp Examples.no_const 0
  = Ok ({| DetectConstPrintArguments.consts := ∅;
           DetectConstPrintArguments.block := 0 |}, false).
Proof. vm_compute. reflexivity. Qed.

(** ** The properties of the specification *)

(** C1.  Every assignment that [RewritePrintCalls] matches (a call without
    keyword arguments whose callee is inferred to be the builtin print) is in
    the plan of [match], and [apply] puts in its place in the new block
    exactly two new instructions, in this order: a Print node with the
    positional arguments, the variable argument and the location of the call,
    and an assignment of the constant None to the target of the original
    instruction, at the location of the original instruction.  The
    instructions before and after it are rewritten on their own. *)
Theorem print_call_replaced interp h b self found pre inst post
    expr target inst_loc :
  RewritePrintCalls.match_ interp h b = Ok (self, found) →
  block_body h b = pre ++ inst :: post →
  insts h !! inst = Some (Assign (VExpr expr) target inst_loc) →
  op expr = "call"%string →
  kws expr = [] →
  infer_constant interp (func expr) = Ok BuiltinPrint →
  found = true ∧
  RewritePrintCalls.prints self !! inst = Some expr ∧
  ∃ h' new_block pre' print_node assign_node post',
    RewritePrintCalls.apply self h = Ok (h', new_block) ∧
    block_body h' new_block = pre' ++ print_node :: assign_node :: post' ∧
    insts h' !! print_node
      = Some (Print (args expr) (vararg expr) ∅ (loc expr)) ∧
    insts h' !! assign_node
      = Some (Assign (VConst PyNone (loc expr)) target inst_loc) ∧
    insts h !! print_node = None ∧
    insts h !! assign_node = None ∧
    Rewritten (RewritePrintCalls.prints self) h h' pre pre' ∧
    Rewritten (RewritePrintCalls.prints self) h h' post post'.
Proof.
  intros Hmatch Hbody Hinst Hop Hkws Hcallee.
  assert (inst ∈ block_body h b) as Hin.
  { rewrite Hbody, elem_of_app. right. by left. }
  assert (is_print_call interp h inst expr) as Htrigger.
  { by exists target, inst_loc. }
  assert (RewritePrintCalls.prints self !! inst = Some expr) as Hplan.
  { by eapply match_plan. }
  split; [eapply match_found; eauto|]. split; [done|].
  destruct (block_body_live h b _ Hbody) as (blk & Hblk & _);
    [by destruct pre|].
  destruct (apply_Rewritten _ _ _ _ _ _ Hmatch Hblk)
    as (h' & Happly & Hrw & _).
  rewrite Hbody in Hrw.
  apply Rewritten_app_inv in Hrw as (pre' & l2 & Hl & Hpre & Hpost).
  inversion Hpost
    as [|? ? ? Hnone|? e v t lc pn an ? post' He Hi Hpn Han Hpn' Han' Hpost'];
    subst; [congruence|].
  rewrite Hplan in He. injection He as <-.
  rewrite Hinst in Hi. injection Hi as <- <- <-.
  by exists h', (length (blocks h)), pre', pn, an, post'.
Qed.

(** [r = print(1, 2)] at the head of a block becomes a Print node of the
    arguments [1, 2] and [r = None]. *)
Lemma print_call_replaced_witness :
  ∃ h' new_block pre' print_node assign_node post',
    RewritePrintCalls.apply Examples.calls_plan Examples.calls
      = Ok (h', new_block) ∧
    block_body h' new_block = pre' ++ print_node :: assign_node :: post' ∧
    insts h' !! print_node
      = Some (Print [Examples.var "$const1"; Examples.var "$const2"] None ∅
                (loc Examples.print_1_2)) ∧
    insts h' !! assign_node
      = Some (Assign (VConst PyNone (loc Examples.print_1_2))
                (Examples.var "r") (Examples.at_line 1)) ∧
    insts Examples.calls !! print_node = None ∧
    insts Examples.calls !! assign_node = None ∧
    Rewritten (RewritePrintCalls.prints Examples.calls_plan)
      Examples.calls h' [] pre' ∧
    Rewritten (RewritePrintCalls.prints Examples.calls_plan)
      Examples.calls h' [1; 2; 3; 4] post'.
Proof.
  apply (print_call_replaced Examples.interp Examples.calls 0
           Examples.calls_plan true [] 0 [1; 2; 3; 4] Examples.print_1_2
           (Examples.var "r") (Examples.at_line 1));
    vm_compute; reflexivity.
Defined.

(** C3.  An assignment of a call that has a keyword argument is never
    matched by [RewritePrintCalls], whatever the inference makes of the
    callee: the turn of the loop of [match] leaves the plan as it is without
    a question to the inference, the instruction is not in the plan, and
    [apply] carries it over to its place in the new block as it is. *)
Theorem keyword_call_not_matched interp h b self found pre inst post
    expr target inst_loc :
  RewritePrintCalls.match_ interp h b = Ok (self, found) →
  block_body h b = pre ++ inst :: post →
  insts h !! inst = Some (Assign (VExpr expr) target inst_loc) →
  kws expr ≠ [] →
  (∀ interp' prints,
     RewritePrintCalls.match_inst interp' h prints inst = Ok prints) ∧
  RewritePrintCalls.prints self !! inst = None ∧
  ∃ h' new_block pre' post',
    RewritePrintCalls.apply self h = Ok (h', new_block) ∧
    block_body h' new_block = pre' ++ inst :: post' ∧
    insts h' !! inst = Some (Assign (VExpr expr) target inst_loc) ∧
    Rewritten (RewritePrintCalls.prints self) h h' pre pre' ∧
    Rewritten (RewritePrintCalls.prints self) h h' post post'.
Proof.
  intros Hmatch Hbody Hinst Hkws.
  assert (RewritePrintCalls.prints self !! inst = None) as Hplan.
  { destruct (RewritePrintCalls.prints self !! inst) as [e|] eqn:Hp; [|done].
    apply (match_plan _ _ _ _ _ Hmatch) in Hp
      as (_ & t & lc & Hi & _ & Hk & _).
    rewrite Hinst in Hi. injection Hi as <- <- <-. done. }
  split; [|split; [done|]].
  - intros interp' prints. unfold RewritePrintCalls.match_inst.
    rewrite Hinst. destruct (String.eqb _ _); [|done].
    by destruct (kws expr).
  - destruct (kept_in_place _ _ _ _ _ _ _ _ Hmatch Hbody Hplan)
      as (h' & nb & pre' & post' & Happly & Hbody' & Hpre & Hpost & Hext).
    exists h', nb, pre', post'. repeat split; try done. by apply Hext.
Qed.

(** [s = print(x, fmt=y)] stays where it is. *)
Lemma keyword_call_not_matched_witness :
  RewritePrintCalls.prints Examples.calls_plan !! 1 = None ∧
  ∃ h' new_block pre' post',
    RewritePrintCalls.apply Examples.calls_plan Examples.calls
      = Ok (h', new_block) ∧
    block_body h' new_block = pre' ++ 1 :: post' ∧
    insts h' !! 1
      = Some (Assign (VExpr Examples.print_x_fmt) (Examples.var "s")
                (Examples.at_line 2)) ∧
    Rewritten (RewritePrintCalls.prints Examples.calls_plan)
      Examples.calls h' [0] pre' ∧
    Rewritten (RewritePrintCalls.prints Examples.calls_plan)
      Examples.calls h' [2; 3; 4] post'.
Proof.
  apply (keyword_call_not_matched Examples.interp Examples.calls 0
           Examples.calls_plan true [0] 1 [2; 3; 4] Examples.print_x_fmt
           (Examples.var "s") (Examples.at_line 2));
    [vm_compute; reflexivity..|discriminate].
Defined.

(** C10.  The callee is recognised by identity with the builtin print: an
    assignment of a call whose callee is inferred to be any other object,
    even a function that is named print, is not matched, and [apply] carries
    it over to its place in the new block as it is. *)
Theorem other_callee_not_matched interp h b self found pre inst post
    expr target inst_loc callee :
  RewritePrintCalls.match_ interp h b = Ok (self, found) →
  block_body h b = pre ++ inst :: post →
  insts h !! inst = Some (Assign (VExpr expr) target inst_loc) →
  infer_constant interp (func expr) = Ok callee →
  callee ≠ BuiltinPrint →
  (∀ prints, RewritePrintCalls.match_inst interp h prints inst = Ok prints) ∧
  RewritePrintCalls.prints self !! inst = None ∧
  ∃ h' new_block pre' post',
    RewritePrintCalls.apply self h = Ok (h', new_block) ∧
    block_body h' new_block = pre' ++ inst :: post' ∧
    insts h' !! inst = Some (Assign (VExpr expr) target inst_loc) ∧
    Rewritten (RewritePrintCalls.prints self) h h' pre pre' ∧
    Rewritten (RewritePrintCalls.prints self) h h' post post'.
Proof.
  intros Hmatch Hbody Hinst Hcallee Hother.
  assert (RewritePrintCalls.prints self !! inst = None) as Hplan.
  { destruct (RewritePrintCalls.prints self !! inst) as [e|] eqn:Hp; [|done].
    apply (match_plan _ _ _ _ _ Hmatch) in Hp
      as (_ & t & lc & Hi & _ & _ & Hc).
    rewrite Hinst in Hi. injection Hi as <- <- <-. congruence. }
  split; [|split; [done|]].
  - intros prints. unfold RewritePrintCalls.match_inst.
    rewrite Hinst, Hcallee. destruct (String.eqb _ _); [|done].
    destruct (truthy_list _); [done|]. by destruct callee.
  - destruct (kept_in_place _ _ _ _ _ _ _ _ Hmatch Hbody Hplan)
      as (h' & nb & pre' & post' & Happly & Hbody' & Hpre & Hpost & Hext).
    exists h', nb, pre', post'. repeat split; try done. by apply Hext.
Qed.

(** [t = myprint(1)], with [myprint] a user function named print, stays where
    it is. *)
Lemma other_callee_not_matched_witness :
  RewritePrintCalls.prints Examples.calls_plan !! 2 = None ∧
  ∃ h' new_block pre' post',
    RewritePrintCalls.apply Examples.calls_plan Examples.calls
      = Ok (h', new_block) ∧
    block_body h' new_block = pre' ++ 2 :: post' ∧
    insts h' !! 2
      = Some (Assign (VExpr Examples.myprint_1) (Examples.var "t")
                (Examples.at_line 3)) ∧
    Rewritten (RewritePrintCalls.prints Examples.calls_plan)
      Examples.calls h' [0; 1] pre' ∧
    Rewritten (RewritePrintCalls.prints Examples.calls_plan)
      Examples.calls h' [3; 4] post'.
Proof.
  apply (other_callee_not_matched Examples.interp Examples.calls 0
           Examples.calls_plan true [0; 1] 2 [3; 4] Examples.myprint_1
           (Examples.var "t") (Examples.at_line 3) (PyFunction "print" 7));
    [vm_compute; reflexivity..|discriminate].
Defined.

(** C7.  When no instruction of the block has the shape a rule looks for, the
    [match] of the rule answers false.  When [RewritePrintCalls] has matched,
    [apply] carries the instructions that are not in the plan over to the new
    block: the new body is the old one with the planned instructions replaced
    where they stood, the instructions kept are a subsequence of it in their
    old order, and no object of the old store has changed. *)
Theorem unmatched_carried_over interp h b :
  only_inference_errors interp →
  ((∀ inst expr, inst ∈ block_body h b → ¬ is_print_call interp h inst expr) →
   ∃ self, RewritePrintCalls.match_ interp h b = Ok (self, false)) ∧
  ((∀ inst args, inst ∈ block_body h b → ¬ is_unannotated_print h inst args) →
   ∃ self, DetectConstPrintArguments.match_ interp h b = Ok (self, false)) ∧
  (∀ self, RewritePrintCalls.match_ interp h b = Ok (self, true) →
   ∃ h' new_block,
     RewritePrintCalls.apply self h = Ok (h', new_block) ∧
     Rewritten (RewritePrintCalls.prints self) h h'
       (block_body h b) (block_body h' new_block) ∧
     filter (λ inst, RewritePrintCalls.prints self !! inst = None)
       (block_body h b) `sublist_of` block_body h' new_block ∧
     extends h h').
Proof.
  intros Herr. split; [|split].
  - intros Hnone. destruct (match_total interp h b Herr) as (self & found & Hm).
    exists self. rewrite Hm. do 2 f_equal.
    destruct found; [|done].
    destruct (proj1 (match_found _ _ _ _ _ Hm) eq_refl)
      as (inst & expr & Hin & Ht).
    by destruct (Hnone inst expr).
  - intros Hnone.
    destruct (for_each_match_consts_Ok interp h (find_insts h b PrintCls) ∅)
      as [p Hp].
    { apply Forall_forall. intros inst _. by apply print_consts_total. }
    assert (DetectConstPrintArguments.match_ interp h b
            = Ok ({| DetectConstPrintArguments.consts := p;
                     DetectConstPrintArguments.block := b |},
                  Nat.ltb 0 (size p))) as Hm.
    { unfold DetectConstPrintArguments.match_. by rewrite Hp. }
    eexists. rewrite Hm. do 2 f_equal.
    destruct (Nat.ltb 0 (size p)) eqn:Hfound; [|done].
    apply size_pos_lookup in Hfound as (inst & m & Hi).
    apply (cmatch_plan _ _ _ _ _ Hm) in Hi as (Hin & _ & args & Ht & _).
    by destruct (Hnone inst args).
  - intros self Hm.
    destruct (match_true_block _ _ _ _ _ Hm eq_refl) as [blk Hblk].
    destruct (apply_Rewritten _ _ _ _ _ _ Hm Hblk)
      as (h' & Happly & Hrw & Hext & _).
    exists h', (length (blocks h)). repeat split; try done; try apply Hext.
    by eapply Rewritten_sublist.
Qed.

(** A block without a call of the builtin print and a block whose Print nodes
    have no constant argument are not matched; in the rewritten block of
    [r = print(1, 2); ...] the other four instructions follow in their
    order. *)
Lemma unmatched_carried_over_witness :
  (∃ self, RewritePrintCalls.match_ Examples.interp Examples.no_print 0
           = Ok (self, false)) ∧
  (∃ self, DetectConstPrintArguments.match_ Examples.interp Examples.calls 0
           = Ok (self, false)) ∧
  ∃ h' new_block,
    RewritePrintCalls.apply Examples.calls_plan Examples.calls
      = Ok (h', new_block) ∧
    Rewritten (RewritePrintCalls.prints Examples.calls_plan) Examples.calls h'
      [0; 1; 2; 3; 4] (block_body h' new_block) ∧
    [1; 2; 3; 4] `sublist_of` block_body h' new_block ∧
    extends Examples.calls h'.
Proof.
  split; [|split].
  - apply (unmatched_carried_over Examples.interp Examples.no_print 0
             interp_only_inference_errors).
    intros inst expr Hin (t & lc & Hi & _ & Hk & Hc).
    vm_compute in Hin.
    repeat (apply elem_of_cons in Hin as [->|Hin]);
      try (by apply elem_of_nil in Hin);
      vm_compute in Hi; try discriminate; injection Hi as <- <- <-;
      vm_compute in Hk, Hc; discriminate.
  - apply (unmatched_carried_over Examples.interp Examples.calls 0
             interp_only_inference_errors).
    intros inst args Hin (va & lc & Hi). vm_compute in Hin.
    repeat (apply elem_of_cons in Hin as [->|Hin]);
      try (by apply elem_of_nil in Hin); vm_compute in Hi; discriminate.
  - destruct (unmatched_carried_over Examples.interp Examples.calls 0
                interp_only_inference_errors) as (_ & _ & Happly).
    destruct (Happly Examples.calls_plan) as (h' & nb & Ha & Hr & Hs & He);
      [vm_compute; reflexivity|].
    exists h', nb. split; [exact Ha|]. split; [exact Hr|].
    split; [exact Hs|exact He].
Defined.




Lemma failed_callee_skipped interp h b self found pre inst post
    expr target inst_loc :
  RewritePrintCalls.match_ interp h b = Ok (self, found) →
  block_body h b = pre ++ inst :: post →
  insts h !! inst = Some (Assign (VExpr expr) target inst_loc) →
  infer_constant interp (func expr) = Raise ConstantInferenceError →
  RewritePrintCalls.prints self !! inst = None ∧
  ∀ x e, x ∈ pre ++ post → is_print_call interp h x e →
         RewritePrintCalls.prints self !! x = Some e.
Proof.
  intros Hm Hbody Hi Hfail. split.
  - destruct (RewritePrintCalls.prints self !! inst) as [e|] eqn:Hp; [|done].
    apply (match_plan _ _ _ _ _ Hm) in Hp as (_ & t & lc & Hi' & _ & _ & Hc).
    rewrite Hi in Hi'. injection Hi' as <- <- <-. congruence.
  - intros x e Hx Ht. apply (match_plan _ _ _ _ _ Hm). split; [|done].
    rewrite Hbody. apply elem_of_app in Hx as [Hx|Hx];
      rewrite elem_of_app; [by left|right; by right].
Qed.

Lemma failed_argument_skipped interp h b self found (inst : ref)
    args1 var args2 vararg inst_loc :
  DetectConstPrintArguments.match_ interp h b = Ok (self, found) →
  insts h !! inst = Some (Print (args1 ++ var :: args2) vararg ∅ inst_loc) →
  infer_constant interp var = Raise ConstantInferenceError →
  (∀ m, DetectConstPrintArguments.consts self !! inst = Some m →
        m !! length args1 = None) ∧
  ∀ (x : ref) args idx v const,
    x ∈ block_body h b → is_unannotated_print h x args →
    args !! idx = Some v → infer_constant interp v = Ok const →
    ∃ m, DetectConstPrintArguments.consts self !! x = Some m ∧
         m !! idx = Some const.
Proof.
  intros Hm Hi Hfail. split.
  - intros m Hp.
    apply (cmatch_plan _ _ _ _ _ Hm) in Hp
      as (_ & _ & args & (va & lc & Hi') & Hc).
    rewrite Hi in Hi'. injection Hi' as <- <- <-.
    destruct (m !! length args1) as [c|] eqn:Hidx; [|done].
    apply (const_args_lookup _ _ _ _ _ _ Hc) in Hidx as (v & _ & Hl & Hv).
    rewrite Nat.sub_0_r, list_lookup_middle in Hl by done.
    injection Hl as <-. congruence.
  - intros x args idx v const Hin Ht Hl Hv.
    destruct (cmatch_probed _ _ _ _ _ Hm x Hin) as [m Hpc].
    assert (const_args interp 0 args = Ok m) as Hc.
    { destruct Ht as (va & lc & Hx). unfold print_consts in Hpc.
      rewrite Hx in Hpc.
      by replace (truthy_dict (∅ : gmap nat PyObj)) with false in Hpc
        by (symmetry; by apply truthy_dict_false). }
    assert (m !! idx = Some const) as Hidx.
    { apply (const_args_lookup _ _ _ _ _ _ Hc). exists v.
      rewrite Nat.sub_0_r. split; [lia|done]. }
    exists m. split; [|done]. apply (cmatch_plan _ _ _ _ _ Hm).
    split; [done|]. split; [by intros ->|]. eauto.
Qed.

(** C5.  A ConstantInferenceError of the inference never leaves [match]: the
    turn of the loop that met it leaves the plan as it is and the loop goes
    on with the next candidate.  So the plan [match] returns has no entry for
    a call whose callee, and no index for an argument whose inference, has
    failed, and it has the entries of all the other candidates of the block,
    those before and those after the failure.  With an inference that fails
    no other way, [match] of either rule returns. *)
Theorem inference_error_skipped interp h b :
  RewritePrintCalls.match_ interp h b ≠ Raise ConstantInferenceError ∧
  DetectConstPrintArguments.match_ interp h b ≠ Raise ConstantInferenceError ∧
  (only_inference_errors interp →
   (∃ self found, RewritePrintCalls.match_ interp h b = Ok (self, found)) ∧
   (∃ self found,
      DetectConstPrintArguments.match_ interp h b = Ok (self, found))) ∧
  (∀ prints inst rest expr target inst_loc,
     insts h !! inst = Some (Assign (VExpr expr) target inst_loc) →
     infer_constant interp (func expr) = Raise ConstantInferenceError →
     for_each (RewritePrintCalls.match_inst interp h) (inst :: rest) prints
     = for_each (RewritePrintCalls.match_inst interp h) rest prints) ∧
  (∀ consts inst idx var rest,
     infer_constant interp var = Raise ConstantInferenceError →
     for_each (DetectConstPrintArguments.match_arg interp inst)
       ((idx, var) :: rest) consts
     = for_each (DetectConstPrintArguments.match_arg interp inst) rest consts) ∧
  (∀ self found pre inst post expr target inst_loc,
     RewritePrintCalls.match_ interp h b = Ok (self, found) →
     block_body h b = pre ++ inst :: post →
     insts h !! inst = Some (Assign (VExpr expr) target inst_loc) →
     infer_constant interp (func expr) = Raise ConstantInferenceError →
     RewritePrintCalls.prints self !! inst = None ∧
     ∀ x e, x ∈ pre ++ post → is_print_call interp h x e →
            RewritePrintCalls.prints self !! x = Some e) ∧
  (∀ self found (inst : ref) args1 var args2 vararg inst_loc,
     DetectConstPrintArguments.match_ interp h b = Ok (self, found) →
     insts h !! inst
       = Some (Print (args1 ++ var :: args2) vararg ∅ inst_loc) →
     infer_constant interp var = Raise ConstantInferenceError →
     (∀ m, DetectConstPrintArguments.consts self !! inst = Some m →
           m !! length args1 = None) ∧
     ∀ (x : ref) args idx v const,
       x ∈ block_body h b → is_unannotated_print h x args →
       args !! idx = Some v → infer_constant interp v = Ok const →
       ∃ m, DetectConstPrintArguments.consts self !! x = Some m ∧
            m !! idx = Some const) ∧
  (only_inference_errors interp →
   ∀ pre inst post expr target inst_loc,
     block_body h b = pre ++ inst :: post →
     insts h !! inst = Some (Assign (VExpr expr) target inst_loc) →
     infer_constant interp (func expr) = Raise ConstantInferenceError →
     ∃ self found,
       RewritePrintCalls.match_ interp h b = Ok (self, found) ∧
       RewritePrintCalls.prints self !! inst = None ∧
       ∀ x e, x ∈ pre ++ post → is_print_call interp h x e →
              RewritePrintCalls.prints self !! x = Some e) ∧
  (only_inference_errors interp →
   ∀ (inst : ref) args1 var args2 vararg inst_loc,
     insts h !! inst
       = Some (Print (args1 ++ var :: args2) vararg ∅ inst_loc) →
     infer_constant interp var = Raise ConstantInferenceError →
     ∃ self found,
       DetectConstPrintArguments.match_ interp h b = Ok (self, found) ∧
       (∀ m, DetectConstPrintArguments.consts self !! inst = Some m →
             m !! length args1 = None) ∧
       ∀ (x : ref) args idx v const,
         x ∈ block_body h b → is_unannotated_print h x args →
         args !! idx = Some v → infer_constant interp v = Ok const →
         ∃ m, DetectConstPrintArguments.consts self !! x = Some m ∧
              m !! idx = Some const).
Proof.
  assert (only_inference_errors interp →
          ∃ self found,
            DetectConstPrintArguments.match_ interp h b = Ok (self, found))
    as Hconsts.
  { intros Herr.
    destruct (for_each_match_consts_Ok interp h (find_insts h b PrintCls) ∅)
      as [p Hp].
    { apply Forall_forall. intros inst _. by apply print_consts_total. }
    unfold DetectConstPrintArguments.match_. rewrite Hp. simpl. eauto. }
  split; [|split; [|split; [|split; [|split; [|split; [|split; [|split]]]]]]].
  - unfold RewritePrintCalls.match_.
    destruct (for_each _ _ _) as [p|e] eqn:Hp; simpl; [done|].
    apply for_each_Raise in Hp as (? & ? & _ & Hr).
    apply print_calls_match_inst_Raise in Hr. congruence.
  - unfold DetectConstPrintArguments.match_.
    destruct (for_each _ _ _) as [p|e] eqn:Hp; simpl; [done|].
    apply for_each_Raise in Hp as (? & ? & _ & Hr).
    apply const_args_match_inst_Raise in Hr. congruence.
  - intros Herr. split; [by apply match_total|by apply Hconsts].
  - intros prints inst rest expr target lc Hi Hfail.
    rewrite for_each_cons.
    assert (RewritePrintCalls.match_inst interp h prints inst = Ok prints)
      as ->; [|done].
    unfold RewritePrintCalls.match_inst. rewrite Hi, Hfail.
    destruct (String.eqb _ _); [|done]. by destruct (truthy_list _).
  - intros consts inst idx var rest Hfail. rewrite for_each_cons.
    assert (DetectConstPrintArguments.match_arg interp inst consts (idx, var)
            = Ok consts) as ->; [|done].
    unfold DetectConstPrintArguments.match_arg. by rewrite Hfail.
  - intros self found pre inst post expr target lc Hm Hbody Hi Hfail.
    by eapply failed_callee_skipped.
  - intros self found inst args1 var args2 va lc Hm Hi Hfail.
    by eapply failed_argument_skipped.
  - intros Herr pre inst post expr target lc Hbody Hi Hfail.
    destruct (match_total interp h b Herr) as (self & found & Hm).
    exists self, found. split; [done|]. by eapply failed_callee_skipped.
  - intros Herr inst args1 var args2 va lc Hi Hfail.
    destruct (Hconsts Herr) as (self & found & Hm).
    exists self, found. split; [done|]. by eapply failed_argument_skipped.
Qed.

(** In [u = f(1); r = print(1, 2)] the callee [f] is unknown: [match] returns,
    without an entry for the first call and with the entry of the second.  In
    [print(y, 1); print(2)] the argument [y] is unknown: [match] returns, the
    mapping of the first node has no index 0 and has the index 1, and the
    second node has its mapping. *)
Lemma inference_error_skipped_witness :
  (∃ self found,
     RewritePrintCalls.match_ Examples.interp MoreExamples.f_first 0
       = Ok (self, found) ∧
     RewritePrintCalls.prints self !! 0 = None ∧
     RewritePrintCalls.prints self !! 1 = Some Examples.print_1_2) ∧
  (∃ self found,
     DetectConstPrintArguments.match_ Examples.interp MoreExamples.y_first 0
       = Ok (self, found) ∧
     (∀ m, DetectConstPrintArguments.consts self !! 0 = Some m →
           m !! 0 = None) ∧
     (∃ m, DetectConstPrintArguments.consts self !! 0 = Some m ∧
           m !! 1 = Some (PyInt 1)) ∧
     (∃ m, DetectConstPrintArguments.consts self !! 1 = Some m ∧
           m !! 0 = Some (PyInt 2))) ∧
  for_each (RewritePrintCalls.match_inst Examples.interp Examples.calls)
    [3; 0] ∅
  = for_each (RewritePrintCalls.match_inst Examples.interp Examples.calls)
      [0] ∅ ∧
  for_each (DetectConstPrintArguments.match_arg Examples.interp 0)
    [(1, Examples.var "y"); (2, Examples.var "$const2")] ∅
  = for_each (DetectConstPrintArguments.match_arg Examples.interp 0)
      [(2, Examples.var "$const2")] ∅.
Proof.
  destruct (inference_error_skipped Examples.interp Examples.calls 0)
    as (_ & _ & _ & Hcall & _).
  destruct (inference_error_skipped Examples.interp Examples.nodes 0)
    as (_ & _ & _ & _ & Harg & _).
  destruct (inference_error_skipped Examples.interp MoreExamples.f_first 0)
    as (_ & _ & _ & _ & _ & _ & _ & Hf & _).
  destruct (inference_error_skipped Examples.interp MoreExamples.y_first 0)
    as (_ & _ & _ & _ & _ & _ & _ & _ & Hy).
  split; [|split; [|split]].
  - destruct (Hf interp_only_inference_errors [] 0 [1] Examples.f_1
                (Examples.var "u") (Examples.at_line 1))
      as (self & found & Hm & Hnone & Hrest); [vm_compute; reflexivity..|].
    exists self, found. split; [exact Hm|]. split; [exact Hnone|].
    apply Hrest; [by left|].
    exists (Examples.var "r"), (Examples.at_line 2).
    repeat split; vm_compute; reflexivity.
  - destruct (Hy interp_only_inference_errors 0 [] (Examples.var "y")
                [Examples.var "$const1"] None (Examples.at_line 1))
      as (self & found & Hm & Hnone & Hrest); [vm_compute; reflexivity..|].
    exists self, found. split; [exact Hm|]. split; [exact Hnone|]. split.
    + apply (Hrest 0 [Examples.var "y"; Examples.var "$const1"] 1
               (Examples.var "$const1")); try (vm_compute; reflexivity).
      * by left.
      * by exists None, (Examples.at_line 1).
    + apply (Hrest 1 [Examples.var "$const2"] 0 (Examples.var "$const2"));
        try (vm_compute; reflexivity).
      * right. by left.
      * by exists None, (Examples.at_line 2).
  - apply (Hcall ∅ 3 [0] Examples.f_1 (Examples.var "u") (Examples.at_line 4));
      vm_compute; reflexivity.
  - apply (Harg ∅ 0 1 (Examples.var "y")). vm_compute. reflexivity.
Defined.

(** C9.  [match] answers true exactly when it has found a candidate, that is
    when its plan has an entry: for [RewritePrintCalls] an assignment of the
    block that calls the builtin print without keyword arguments, for
    [DetectConstPrintArguments] a Print node of the block with an empty
    mapping one of whose arguments the inference resolves. *)
Theorem match_answer interp1 h1 b1 self1 found1 interp2 h2 b2 self2 found2 :
  RewritePrintCalls.match_ interp1 h1 b1 = Ok (self1, found1) →
  DetectConstPrintArguments.match_ interp2 h2 b2 = Ok (self2, found2) →
  (found1 = true ↔
     ∃ inst expr, RewritePrintCalls.prints self1 !! inst = Some expr) ∧
  (found1 = true ↔
     ∃ inst expr,
       inst ∈ block_body h1 b1 ∧ is_print_call interp1 h1 inst expr) ∧
  (found2 = true ↔
     ∃ inst m, DetectConstPrintArguments.consts self2 !! inst = Some m) ∧
  (found2 = true ↔
     ∃ inst args idx var const,
       inst ∈ block_body h2 b2 ∧ is_unannotated_print h2 inst args ∧
       args !! idx = Some var ∧ infer_constant interp2 var = Ok const).
Proof.
  intros Hm1 Hm2. split; [|split; [|split]].
  - rewrite (match_found _ _ _ _ _ Hm1).
    split; intros (inst & expr & H); exists inst, expr;
      by apply (match_plan _ _ _ _ _ Hm1).
  - by eapply match_found.
  - by eapply cmatch_found.
  - rewrite (cmatch_found _ _ _ _ _ Hm2). split.
    + intros (inst & m & Hp).
      apply (cmatch_plan _ _ _ _ _ Hm2) in Hp as (Hin & Hne & args & Ht & Hc).
      destruct (proj1 (const_args_nonempty _ _ _ Hc) Hne)
        as (idx & var & const & Hl & Hv).
      by exists inst, args, idx, var, const.
    + intros (inst & args & idx & var & const & Hin & Ht & Hl & Hv).
      destruct (cmatch_probed _ _ _ _ _ Hm2 inst Hin) as [m Hm].
      assert (const_args interp2 0 args = Ok m) as Hc.
      { destruct Ht as (va & lc & Hi). unfold print_consts in Hm.
        rewrite Hi in Hm.
        by replace (truthy_dict (∅ : gmap nat PyObj)) with false in Hm
          by (symmetry; by apply truthy_dict_false). }
      exists inst, m. apply (cmatch_plan _ _ _ _ _ Hm2).
      split; [done|]. split; [|eauto].
      apply (const_args_nonempty _ _ _ Hc). eauto.
Qed.

(** The calls [print(x, fmt=y)], [myprint(1)] and [f(1)], and the node
    [print(y)] with [y] unknown, are no candidates. *)
Lemma match_answer_witness :
  (false = true ↔
     ∃ inst expr,
       inst ∈ block_body Examples.no_print 0 ∧
       is_print_call Examples.interp Examples.no_print inst expr) ∧
  (false = true ↔
     ∃ inst args idx var const,
       inst ∈ block_body Examples.no_const 0 ∧
       is_unannotated_print Examples.no_const inst args ∧
       args !! idx = Some var ∧
       infer_constant Examples.interp var = Ok const).
Proof.
  destruct (match_answer Examples.interp Examples.no_print 0 _ false
              Examples.interp Examples.no_const 0 _ false
              match_no_print match_no_const) as (_ & H1 & _ & H2).
  split; [exact H1|exact H2].
Defined.

(** C8.  No rule matches its own output.  After a successful [match] and the
    [apply] that follows it, [match] on the returned block answers false, so
    the loop of the driver ends in its second turn with that block; and
    whatever the block, the loop of either rule ends within two turns. *)
Theorem rules_reach_fixpoint :
  (∀ interp h b self,
     RewritePrintCalls.match_ interp h b = Ok (self, true) →
     ∃ h' new_block,
       RewritePrintCalls.apply self h = Ok (h', new_block) ∧
       (∃ self', RewritePrintCalls.match_ interp h' new_block
                 = Ok (self', false)) ∧
       ∀ fuel, run_print_calls interp (2 + fuel) h b
               = Some (Ok (h', new_block))) ∧
  (∀ interp h b self,
     DetectConstPrintArguments.match_ interp h b = Ok (self, true) →
     (∃ self', DetectConstPrintArguments.match_ interp
                 (DetectConstPrintArguments.apply self h).1
                 (DetectConstPrintArguments.apply self h).2
               = Ok (self', false)) ∧
     ∀ fuel, run_const_args interp (2 + fuel) h b
             = Some (Ok (DetectConstPrintArguments.apply self h))) ∧
  (∀ interp h b, ∃ r, run_print_calls interp 2 h b = Some r) ∧
  (∀ interp h b, ∃ r, run_const_args interp 2 h b = Some r).
Proof.
  assert (∀ interp h b self,
            RewritePrintCalls.match_ interp h b = Ok (self, true) →
            ∃ h' new_block,
              RewritePrintCalls.apply self h = Ok (h', new_block) ∧
              (∃ self', RewritePrintCalls.match_ interp h' new_block
                        = Ok (self', false)) ∧
              ∀ fuel, run_print_calls interp (2 + fuel) h b
                      = Some (Ok (h', new_block))) as Hcalls.
  { intros interp h b self Hm.
    destruct (match_true_block _ _ _ _ _ Hm eq_refl) as [blk Hblk].
    pose proof (apply_after_match _ _ _ _ _ Hm blk Hblk) as Happly.
    pose proof (rematch_false _ _ _ _ _ Hm blk Hblk) as Hre.
    exists (applied self h blk), (length (blocks h)).
    split; [done|]. split; [eauto|].
    intros fuel. unfold run_print_calls.
    change (2 + fuel) with (S (S fuel)).
    rewrite (run_rule_true _ _ _ _ _ _ _ _ Hm Happly).
    by rewrite (run_rule_false _ _ _ _ _ _ Hre). }
  assert (∀ interp h b self,
            DetectConstPrintArguments.match_ interp h b = Ok (self, true) →
            (∃ self', DetectConstPrintArguments.match_ interp
                        (DetectConstPrintArguments.apply self h).1
                        (DetectConstPrintArguments.apply self h).2
                      = Ok (self', false)) ∧
            ∀ fuel, run_const_args interp (2 + fuel) h b
                    = Some (Ok (DetectConstPrintArguments.apply self h)))
    as Hconsts.
  { intros interp h b self Hm.
    pose proof (crematch_false _ _ _ _ _ Hm) as Hre.
    pose proof (capply_block _ _ _ _ _ Hm) as Hb.
    split; [rewrite Hb; eauto|].
    intros fuel. unfold run_const_args.
    change (2 + fuel) with (S (S fuel)).
    assert (DetectConstPrintArguments.apply self h
            = ((DetectConstPrintArguments.apply self h).1, b)) as Ha.
    { rewrite <-Hb. by destruct (DetectConstPrintArguments.apply self h). }
    rewrite (run_rule_true _ _ _ _ _ _
               (DetectConstPrintArguments.apply self h).1 b Hm)
      by (f_equal; exact Ha).
    rewrite (run_rule_false _ _ _ _ _ _ Hre). by rewrite <-Ha. }
  split; [done|]. split; [done|]. split.
  - intros interp h b. unfold run_print_calls.
    destruct (RewritePrintCalls.match_ interp h b) as [[self []]|e] eqn:Hm.
    + destruct (Hcalls interp h b self Hm) as (h' & nb & _ & _ & Hrun).
      exists (Ok (h', nb)). apply (Hrun 0).
    + exists (Ok (h, b)). by eapply run_rule_false.
    + exists (Raise e). by eapply run_rule_Raise.
  - intros interp h b. unfold run_const_args.
    destruct (DetectConstPrintArguments.match_ interp h b)
      as [[self []]|e] eqn:Hm.
    + destruct (Hconsts interp h b self Hm) as (_ & Hrun).
      eexists. apply (Hrun 0).
    + exists (Ok (h, b)). by eapply run_rule_false.
    + exists (Raise e). by eapply run_rule_Raise.
Qed.

(** [r = print(1, 2); ...] is rewritten once and [print(1, y); ...] is
    annotated once: the second [match] answers false. *)
Lemma rules_reach_fixpoint_witness :
  (∃ h' new_block,
     RewritePrintCalls.apply Examples.calls_plan Examples.calls
       = Ok (h', new_block) ∧
     (∃ self', RewritePrintCalls.match_ Examples.interp h' new_block
               = Ok (self', false)) ∧
     ∀ fuel, run_print_calls Examples.interp (2 + fuel) Examples.calls 0
             = Some (Ok (h', new_block))) ∧
  (∃ self', DetectConstPrintArguments.match_ Examples.interp
              (DetectConstPrintArguments.apply
                 Examples.nodes_plan Examples.nodes).1
              (DetectConstPrintArguments.apply
                 Examples.nodes_plan Examples.nodes).2
            = Ok (self', false)) ∧
  (∀ fuel, run_const_args Examples.interp (2 + fuel) Examples.nodes 0
           = Some (Ok (DetectConstPrintArguments.apply
                         Examples.nodes_plan Examples.nodes))).
Proof.
  destruct rules_reach_fixpoint as (Hcalls & Hconsts & _).
  split.
  - apply (Hcalls Examples.interp Examples.calls 0 Examples.calls_plan).
    vm_compute. reflexivity.
  - apply (Hconsts Examples.interp Examples.nodes 0 Examples.nodes_plan).
    vm_compute. reflexivity.
Defined.

Lemma heap_eq h h' :
  blocks h' = blocks h → (∀ inst : ref, insts h' !! inst = insts h !! inst) →
  h' = h.
Proof.
  destruct h, h'. simpl. intros -> Hl. f_equal. by apply list_eq.
Qed.

(** [apply] with an empty plan changes nothing. *)
Lemma const_apply_empty self h :
  DetectConstPrintArguments.consts self = ∅ →
  DetectConstPrintArguments.apply self h
  = (h, DetectConstPrintArguments.block self).
Proof.
  intros Hp. unfold DetectConstPrintArguments.apply. f_equal.
  apply heap_eq; [apply apply_loop_blocks|].
  intros inst. by rewrite apply_loop_lookup, Hp, lookup_empty.
Qed.

(** C4.  A second match/apply cycle of [DetectConstPrintArguments] on the
    block the first one returned leaves the store, and so the constant
    mapping of every Print node, as the first cycle left it: its [match] finds
    no candidate.  The first cycle itself leaves every mapping that was not
    empty as it was. *)
Theorem const_annotation_idempotent interp h b h1 b1 :
  const_args_cycle interp h b = Ok (h1, b1) →
  const_args_cycle interp h1 b1 = Ok (h1, b1) ∧
  DetectConstPrintArguments.match_ interp h1 b1
    = Ok ({| DetectConstPrintArguments.consts := ∅;
             DetectConstPrintArguments.block := b1 |}, false) ∧
  (∀ (inst : ref) args vararg m inst_loc,
     insts h !! inst = Some (Print args vararg m inst_loc) →
     m ≠ ∅ →
     insts h1 !! inst = Some (Print args vararg m inst_loc)).
Proof.
  unfold const_args_cycle. intros Hrun.
  destruct (DetectConstPrintArguments.match_ interp h b)
    as [[self found]|e] eqn:Hm; [|done].
  pose proof (crematch_false _ _ _ _ _ Hm) as Hre.
  pose proof (capply_block _ _ _ _ _ Hm) as Hb.
  pose proof (capply_lookup _ _ _ _ _ Hm) as Hlookup.
  simpl in Hrun.
  destruct (DetectConstPrintArguments.apply self h) as [h' b'].
  injection Hrun as -> ->. simpl in *. subst b1.
  split; [|split; [done|]].
  - rewrite Hre. simpl. by rewrite const_apply_empty.
  - intros inst args va m lc Hi Hne. rewrite Hlookup.
    destruct (DetectConstPrintArguments.consts self !! inst) as [m'|] eqn:Hp;
      [|done].
    apply (cmatch_plan _ _ _ _ _ Hm) in Hp
      as (_ & _ & args' & (va' & lc' & Hi') & _).
    congruence.
Qed.

Lemma const_annotation_idempotent_witness :
  const_args_cycle Examples.interp
    (DetectConstPrintArguments.apply Examples.nodes_plan Examples.nodes).1 0
  = Ok ((DetectConstPrintArguments.apply
           Examples.nodes_plan Examples.nodes).1, 0).
Proof.
  apply (const_annotation_idempotent Examples.interp Examples.nodes 0).
  vm_compute. reflexivity.
Defined.

(** C6.  After [match] and [apply], the mapping of a Print node of the block
    whose mapping was empty holds, for each argument the inference resolves,
    the constant at the index of the argument, and nothing else; it is the
    entry of the plan when the node has one. *)
Theorem const_mapping_exact interp h b self found
    (inst : ref) args vararg inst_loc :
  DetectConstPrintArguments.match_ interp h b = Ok (self, found) →
  inst ∈ block_body h b →
  insts h !! inst = Some (Print args vararg ∅ inst_loc) →
  ∃ m,
    insts (DetectConstPrintArguments.apply self h).1 !! inst
      = Some (Print args vararg m inst_loc) ∧
    (DetectConstPrintArguments.consts self !! inst = Some m ∨
     DetectConstPrintArguments.consts self !! inst = None ∧ m = ∅) ∧
    ∀ idx const,
      m !! idx = Some const ↔
        ∃ var, args !! idx = Some var ∧ infer_constant interp var = Ok const.
Proof.
  intros Hm Hin Hi.
  destruct (cmatch_probed _ _ _ _ _ Hm inst Hin) as [m Hpc].
  assert (const_args interp 0 args = Ok m) as Hc.
  { unfold print_consts in Hpc. rewrite Hi in Hpc.
    by replace (truthy_dict (∅ : gmap nat PyObj)) with false in Hpc
      by (symmetry; by apply truthy_dict_false). }
  exists m. rewrite (capply_lookup _ _ _ _ _ Hm).
  assert (DetectConstPrintArguments.consts self !! inst = Some m ∨
          DetectConstPrintArguments.consts self !! inst = None ∧ m = ∅)
    as Hplan.
  { destruct (decide (m = ∅)) as [->|Hne].
    - right. split; [|done].
      destruct (DetectConstPrintArguments.consts self !! inst) as [m'|] eqn:Hp;
        [|done].
      apply (cmatch_plan _ _ _ _ _ Hm) in Hp
        as (_ & Hne & args' & (va' & lc' & Hi') & Hc').
      rewrite Hi in Hi'. injection Hi' as <- <- <-. congruence.
    - left. apply (cmatch_plan _ _ _ _ _ Hm).
      split; [done|]. split; [done|]. exists args. split; [|done].
      by exists vararg, inst_loc. }
  split; [|split; [done|]].
  - destruct Hplan as [->|[-> ->]]; by rewrite Hi.
  - intros idx const. rewrite (const_args_lookup _ _ _ _ _ _ Hc).
    rewrite Nat.sub_0_r. split.
    + intros (var & _ & ? & ?). eauto.
    + intros (var & ? & ?). exists var. split; [lia|done].
Qed.

(** [print(1, y)] with [y] unknown: the mapping is {0: 1}. *)
Lemma const_mapping_exact_witness :
  insts (DetectConstPrintArguments.apply Examples.nodes_plan Examples.nodes).1
    !! 0
    = Some (Print [Examples.var "$const1"; Examples.var "y"] None
              {[ 0 := PyInt 1 ]} (Examples.at_line 1)) ∧
  ∀ idx const,
    ({[ 0 := PyInt 1 ]} : gmap nat PyObj) !! idx = Some const ↔
      ∃ var, [Examples.var "$const1"; Examples.var "y"] !! idx = Some var ∧
             infer_constant Examples.interp var = Ok const.
Proof.
  destruct (const_mapping_exact Examples.interp Examples.nodes 0
              Examples.nodes_plan true 0
              [Examples.var "$const1"; Examples.var "y"] None
              (Examples.at_line 1))
    as (m & Hi & _ & Hiff);
    [vm_compute; reflexivity| |vm_compute; reflexivity|].
  - vm_compute. by left.
  - assert (m = {[ 0 := PyInt 1 ]}) as ->.
    { vm_compute in Hi. by injection Hi as <-. }
    split; [vm_compute; reflexivity|exact Hiff].
Defined.

(** * Further properties of the two rewrites *)

(** ** Sizes and addresses of the rewritten block *)

Section print_calls_sizes.
Variable prints : gmap ref Expr.
Variable old : list Inst.

Lemma planned_occurrences_cons_Some inst expr l :
  prints !! inst = Some expr →
  planned_occurrences prints (inst :: l) = S (planned_occurrences prints l).
Proof.
  intros Hp. unfold planned_occurrences. by rewrite filter_cons_True by eauto.
Qed.

Lemma planned_occurrences_cons_None inst l :
  prints !! inst = None →
  planned_occurrences prints (inst :: l) = planned_occurrences prints l.
Proof.
  intros Hp. unfold planned_occurrences.
  rewrite filter_cons_False; [done|]. rewrite Hp. by intros [? ?].
Qed.

Lemma new_body_length l : ∀ n,
  length (new_body prints n l) = length l + planned_occurrences prints l.
Proof.
  induction l as [|inst l IH]; intros n; simpl; [done|].
  destruct (prints !! inst) as [e|] eqn:Hp; simpl; rewrite IH.
  - rewrite (planned_occurrences_cons_Some _ _ _ Hp). lia.
  - by rewrite (planned_occurrences_cons_None _ _ Hp).
Qed.

Lemma new_nodes_length self l :
  RewritePrintCalls.prints self = prints →
  plan_live self old l →
  length (new_nodes prints old l) = 2 * planned_occurrences prints l.
Proof.
  intros Hself. induction l as [|inst l IH]; intros Hlive; simpl; [done|].
  destruct (prints !! inst) as [e|] eqn:Hp.
  - destruct (Hlive inst e) as (v & t & lc & ->); [by left|by rewrite Hself|].
    simpl. rewrite IH by (by eapply plan_live_cons).
    rewrite (planned_occurrences_cons_Some _ _ _ Hp). lia.
  - rewrite IH by (by eapply plan_live_cons).
    by rewrite (planned_occurrences_cons_None _ _ Hp).
Qed.

(** Without an instruction of the plan the body is copied as it is. *)
Lemma new_body_unplanned l n :
  Forall (λ inst, prints !! inst = None) l → new_body prints n l = l.
Proof.
  induction 1 as [|inst l Hp _ IH]; simpl; [done|]. by rewrite Hp, IH.
Qed.

Lemma new_nodes_unplanned l :
  Forall (λ inst, prints !! inst = None) l → new_nodes prints old l = [].
Proof.
  induction 1 as [|inst l Hp _ IH]; simpl; [done|]. by rewrite Hp.
Qed.

(** The new addresses of the new body, in the order of the body. *)
Lemma new_body_fresh (l : list ref) : ∀ n,
  Forall (λ inst, inst < n) l →
  filter (λ x, n ≤ x) (new_body prints n l)
  = seq n (2 * planned_occurrences prints l).
Proof.
  assert (∀ (l : list ref) n m, Forall (λ inst, inst < n) l → n ≤ m →
            filter (λ x, n ≤ x) (new_body prints m l)
            = seq m (2 * planned_occurrences prints l)) as Hgen.
  { clear l. induction l as [|inst l IH]; intros n m Hlt Hle; [done|].
    cbn [new_body]. apply Forall_cons in Hlt as [Hinst Hlt].
    destruct (prints !! inst) as [e|] eqn:Hp.
    - rewrite (planned_occurrences_cons_Some _ _ _ Hp).
      rewrite !filter_cons_True by lia.
      replace (2 * S (planned_occurrences prints l))
        with (S (S (2 * planned_occurrences prints l))) by lia.
      cbn [seq]. do 2 f_equal. apply IH; [done|lia].
    - rewrite (planned_occurrences_cons_None _ _ Hp).
      rewrite filter_cons_False by lia. by apply IH. }
  intros n Hlt. by apply (Hgen l n n).
Qed.

Lemma new_body_drops l n inst :
  is_Some (prints !! inst) → inst < n → inst ∉ new_body prints n l.
Proof.
  intros [e Hp] Hlt Hin.
  assert (RewritePrintCalls.prints
            {| RewritePrintCalls.prints := prints;
               RewritePrintCalls.block := 0 |} = prints) as Hself by done.
  apply (elem_of_new_body {| RewritePrintCalls.prints := prints;
                             RewritePrintCalls.block := 0 |}) in Hin
    as [[_ Hnone]|Hge]; simpl in *; [congruence|lia].
Qed.

End print_calls_sizes.

Lemma not_found_empty {V} (m : gmap ref V) : Nat.ltb 0 (size m) = false → m = ∅.
Proof.
  rewrite Nat.ltb_ge. intros Hs. apply map_size_empty_iff. lia.
Qed.

(** X1.  [RewritePrintCalls.apply] after [match] on a live block adds one
    block to the store and two instructions for every place of the body that
    holds an instruction of the plan; the new body is longer than the old one
    by the number of these places.  After a [match] that found nothing the
    new body is the old one and no instruction is created. *)
Theorem print_calls_apply_sizes interp h b self found blk :
  RewritePrintCalls.match_ interp h b = Ok (self, found) →
  blocks h !! b = Some blk →
  ∃ h' new_block,
    RewritePrintCalls.apply self h = Ok (h', new_block) ∧
    length (block_body h' new_block)
      = length (body blk)
        + planned_occurrences (RewritePrintCalls.prints self) (body blk) ∧
    length (insts h')
      = length (insts h)
        + 2 * planned_occurrences (RewritePrintCalls.prints self) (body blk) ∧
    length (blocks h') = S (length (blocks h)) ∧
    (found = false → block_body h' new_block = body blk ∧ insts h' = insts h).
Proof.
  intros Hm Hblk. exists (applied self h blk), (length (blocks h)).
  split; [by eapply apply_after_match|].
  rewrite (applied_body h self blk). split; [apply new_body_length|].
  split; [|split].
  - simpl. rewrite length_app.
    by rewrite (new_nodes_length _ _ self)
      by (done || by eapply match_live).
  - simpl. rewrite length_app. simpl. lia.
  - intros ->. pose proof Hm as (_ & Hf & _)%match_prints.
    symmetry in Hf. apply not_found_empty in Hf.
    assert (Forall (λ inst : ref, RewritePrintCalls.prints self !! inst = None)
              (body blk)) as Hnone.
    { apply Forall_forall. intros inst _. by rewrite Hf, lookup_empty. }
    split; [by apply new_body_unplanned|].
    simpl. by rewrite new_nodes_unplanned, app_nil_r.
Qed.

Example match_twice :
  RewritePrintCalls.match_ Examples.interp MoreExamples.twice 0
  = Ok (Examples.calls_plan, true).
Proof. vm_compute. reflexivity. Qed.

(** A body of three places, two of them the same [r = print(1, 2)], becomes
    a body of five places, with four new instructions in the store. *)
Lemma print_calls_apply_sizes_witness :
  ∃ h' new_block,
    RewritePrintCalls.apply Examples.calls_plan MoreExamples.twice
      = Ok (h', new_block) ∧
    length (block_body h' new_block) = 3 + 2 ∧
    length (insts h') = 2 + 2 * 2 ∧
    length (blocks h') = 2.
Proof.
  destruct (print_calls_apply_sizes Examples.interp MoreExamples.twice 0
              Examples.calls_plan true
              {| scope := 0; body := [0; 0; 1];
                 block_loc := Examples.at_line 1 |} match_twice eq_refl)
    as (h' & nb & Ha & Hbody & Hinsts & Hblocks & _).
  exists h', nb. split; [exact Ha|]. split; [exact Hbody|].
  split; [exact Hinsts|exact Hblocks].
Defined.

(** The two instructions made for the [j]-th place of a body that holds an
    instruction of the plan. *)
Lemma new_nodes_lookup self old (l : list ref) : ∀ j inst expr value target lc,
  plan_live self old l →
  filter (λ inst, is_Some (RewritePrintCalls.prints self !! inst)) l !! j
    = Some inst →
  RewritePrintCalls.prints self !! inst = Some expr →
  old !! inst = Some (Assign value target lc) →
  new_nodes (RewritePrintCalls.prints self) old l !! (2 * j)
    = Some (Print (args expr) (vararg expr) ∅ (loc expr)) ∧
  new_nodes (RewritePrintCalls.prints self) old l !! S (2 * j)
    = Some (Assign (VConst PyNone (loc expr)) target lc).
Proof.
  induction l as [|r l IH]; intros j inst expr value target lc Hlive Hj Hp Hi.
  - done.
  - cbn [new_nodes].
    destruct (RewritePrintCalls.prints self !! r) as [e|] eqn:Hr.
    + destruct (Hlive r e) as (v & t & c & Hold); [by left|done|].
      rewrite Hold. rewrite filter_cons_True in Hj by eauto.
      destruct j as [|j].
      * injection Hj as ->. rewrite Hp in Hr. injection Hr as <-.
        rewrite Hi in Hold. injection Hold as <- <- <-. done.
      * replace (2 * S j) with (S (S (2 * j))) by lia.
        apply (IH j inst expr value target lc); try done.
        by eapply plan_live_cons.
    + rewrite filter_cons_False in Hj by (rewrite Hr; by intros [? ?]).
      apply (IH j inst expr value target lc); try done.
      by eapply plan_live_cons.
Qed.

(** X2.  In the block [RewritePrintCalls.apply] returns, every place of the
    old body that held an instruction of the plan has a Print node and an
    assignment of None of its own, also when one instruction object stood at
    several places: the new body is the old one rewritten place by place, no
    instruction of the plan is left in it, its new addresses are the
    addresses after the old store, each once and in their order, and the two
    instructions at the addresses of the [j]-th such place are the Print node
    of the arguments, variable argument and location of its call and the
    assignment of None to its target at its location. *)
Theorem print_calls_fresh_nodes interp h b self found blk :
  RewritePrintCalls.match_ interp h b = Ok (self, found) →
  blocks h !! b = Some blk →
  body_live h (body blk) →
  ∃ h' new_block,
    RewritePrintCalls.apply self h = Ok (h', new_block) ∧
    Rewritten (RewritePrintCalls.prints self) h h'
      (body blk) (block_body h' new_block) ∧
    filter (λ x, length (insts h) ≤ x) (block_body h' new_block)
      = seq (length (insts h))
          (2 * planned_occurrences (RewritePrintCalls.prints self) (body blk)) ∧
    (∀ inst, is_Some (RewritePrintCalls.prints self !! inst) →
             inst ∉ block_body h' new_block) ∧
    (∀ j inst expr value target inst_loc,
       filter (λ inst, is_Some (RewritePrintCalls.prints self !! inst))
         (body blk) !! j = Some inst →
       RewritePrintCalls.prints self !! inst = Some expr →
       insts h !! inst = Some (Assign value target inst_loc) →
       insts h' !! (length (insts h) + 2 * j)
         = Some (Print (args expr) (vararg expr) ∅ (loc expr)) ∧
       insts h' !! (length (insts h) + S (2 * j))
         = Some (Assign (VConst PyNone (loc expr)) target inst_loc)).
Proof.
  intros Hm Hblk Hlive. exists (applied self h blk), (length (blocks h)).
  split; [by eapply apply_after_match|].
  rewrite (applied_body h self blk). split; [by eapply applied_Rewritten|].
  split; [by apply new_body_fresh|]. split.
  - intros inst [e Hp]. apply new_body_drops; [eauto|].
    destruct (match_live _ _ _ _ _ Hm [inst] inst e) as (v & t & lc & Hi);
      [by left|done|].
    by eapply lookup_lt_Some.
  - intros j inst expr value target lc Hj Hp Hi.
    destruct (new_nodes_lookup self (insts h) (body blk) j inst expr value
                target lc) as [Hprint Hassign]; try done.
    { by eapply match_live. }
    cbn [applied insts]. rewrite !lookup_app_r by lia.
    replace (length (insts h) + 2 * j - length (insts h)) with (2 * j) by lia.
    replace (length (insts h) + S (2 * j) - length (insts h))
      with (S (2 * j)) by lia.
    done.
Qed.

(** The body [0; 0; 1], with [r = print(1, 2)] at 0, becomes
    [2; 3; 4; 5; 1]: a Print node at 2 and at 4, an assignment at 3 and at
    5. *)
Lemma print_calls_fresh_nodes_witness :
  ∃ h' new_block,
    RewritePrintCalls.apply Examples.calls_plan MoreExamples.twice
      = Ok (h', new_block) ∧
    filter (λ x, 2 ≤ x) (block_body h' new_block) = [2; 3; 4; 5] ∧
    (0 ∉ block_body h' new_block) ∧
    insts h' !! 4
      = Some (Print [Examples.var "$const1"; Examples.var "$const2"] None ∅
                (loc Examples.print_1_2)) ∧
    insts h' !! 5
      = Some (Assign (VConst PyNone (loc Examples.print_1_2))
                (Examples.var "r") (Examples.at_line 1)).
Proof.
  destruct (print_calls_fresh_nodes Examples.interp MoreExamples.twice 0
              Examples.calls_plan true
              {| scope := 0; body := [0; 0; 1];
                 block_loc := Examples.at_line 1 |} match_twice eq_refl)
    as (h' & nb & Ha & _ & Hfresh & Hdrop & Hnodes).
  { repeat constructor. }
  exists h', nb. split; [exact Ha|]. split; [exact Hfresh|].
  split; [apply Hdrop; by eexists|].
  apply (Hnodes 1 0 Examples.print_1_2 (VExpr Examples.print_1_2)
           (Examples.var "r") (Examples.at_line 1));
    vm_compute; reflexivity.
Defined.

(** ** What [match] asks the inference *)

Lemma for_each_ext {S A} (f g : S → A → result S) l s :
  (∀ x s, x ∈ l → f s x = g s x) → for_each f l s = for_each g l s.
Proof.
  revert s. induction l as [|x l IH]; intros s Hfg; simpl; [done|].
  rewrite Hfg by (by left). destruct (g s x) as [s'|]; simpl; [|done].
  apply IH. intros y s'' Hy. apply Hfg. by right.
Qed.

Lemma truthy_list_false {A} (l : list A) : truthy_list l = false → l = [].
Proof. by destruct l. Qed.

Lemma elem_of_enumerate_from {A} (l : list A) n idx x :
  (idx, x) ∈ enumerate_from n l → x ∈ l.
Proof.
  revert n. induction l as [|y l IH]; intros n; simpl.
  - intros []%elem_of_nil.
  - rewrite !elem_of_cons. intros [[= _ ->]|Hin]; [by left|].
    right. by eapply IH.
Qed.

(** X3.  [RewritePrintCalls.match] asks the inference about nothing but the
    callees of the assignments of the block that are calls without keyword
    arguments: two interpreters that agree on these give the same plan, the
    same answer and the same exception. *)
Theorem print_calls_match_frame interp1 interp2 h b :
  (∀ inst expr target inst_loc,
     inst ∈ block_body h b →
     insts h !! inst = Some (Assign (VExpr expr) target inst_loc) →
     op expr = "call"%string → kws expr = [] →
     infer_constant interp1 (func expr) = infer_constant interp2 (func expr)) →
  RewritePrintCalls.match_ interp1 h b = RewritePrintCalls.match_ interp2 h b.
Proof.
  intros Hagree. unfold RewritePrintCalls.match_.
  rewrite (for_each_ext (RewritePrintCalls.match_inst interp1 h)
             (RewritePrintCalls.match_inst interp2 h)); [done|].
  intros inst prints [Hin _]%elem_of_find_insts.
  unfold RewritePrintCalls.match_inst.
  destruct (insts h !! inst) as [[[expr| | |] target lc| | |]|] eqn:Hi;
    try done.
  destruct (String.eqb (op expr) "call") eqn:Hop; [|done].
  destruct (truthy_list (kws expr)) eqn:Hkws; [done|].
  rewrite (Hagree inst expr target lc); try done.
  - by apply String.eqb_eq.
  - by apply truthy_list_false.
Qed.

(** [y] is an argument only, so that [Examples.interp], for which it is
    unknown, and [MoreExamples.resolving], for which it is 5, make the same
    plan. *)
Lemma print_calls_match_frame_witness :
  RewritePrintCalls.match_ Examples.interp Examples.calls 0
  = RewritePrintCalls.match_ MoreExamples.resolving Examples.calls 0.
Proof.
  apply print_calls_match_frame.
  intros inst expr target lc Hin Hi _ _. vm_compute in Hin.
  repeat (apply elem_of_cons in Hin as [->|Hin]);
    try (by apply elem_of_nil in Hin);
    vm_compute in Hi; try discriminate; injection Hi as <- _ _;
    vm_compute; reflexivity.
Defined.

(** X4.  [DetectConstPrintArguments.match] asks the inference about nothing
    but the arguments of the Print nodes of the block whose mapping is empty:
    two interpreters that agree on these give the same plan, the same answer
    and the same exception. *)
Theorem const_args_match_frame interp1 interp2 h b :
  (∀ inst args vararg inst_loc var,
     inst ∈ block_body h b →
     insts h !! inst = Some (Print args vararg ∅ inst_loc) →
     var ∈ args →
     infer_constant interp1 var = infer_constant interp2 var) →
  DetectConstPrintArguments.match_ interp1 h b
  = DetectConstPrintArguments.match_ interp2 h b.
Proof.
  intros Hagree. unfold DetectConstPrintArguments.match_.
  rewrite (for_each_ext (DetectConstPrintArguments.match_inst interp1 h)
             (DetectConstPrintArguments.match_inst interp2 h)); [done|].
  intros inst consts [Hin _]%elem_of_find_insts.
  unfold DetectConstPrintArguments.match_inst.
  destruct (insts h !! inst) as [[|args va c lc| |]|] eqn:Hi; try done.
  destruct (truthy_dict c) eqn:Hc; [done|].
  apply truthy_dict_false in Hc as ->.
  apply for_each_ext. intros [idx var] consts' Hvar.
  apply elem_of_enumerate_from in Hvar.
  unfold DetectConstPrintArguments.match_arg.
  by rewrite (Hagree inst args va lc var).
Qed.

(** In [MoreExamples.half] the node [print(1, y)] is annotated, so that the
    value of [y] is of no account. *)
Lemma const_args_match_frame_witness :
  DetectConstPrintArguments.match_ Examples.interp MoreExamples.half 0
  = DetectConstPrintArguments.match_ MoreExamples.resolving MoreExamples.half 0.
Proof.
  apply const_args_match_frame.
  intros inst args va lc var Hin Hi Hvar. vm_compute in Hin.
  repeat (apply elem_of_cons in Hin as [->|Hin]);
    try (by apply elem_of_nil in Hin);
    vm_compute in Hi; try discriminate; injection Hi as <- _ _.
  apply list_elem_of_singleton in Hvar as ->. vm_compute. reflexivity.
Defined.

(** X5.  A block all of whose Print nodes have a mapping that is not empty is
    not matched by [DetectConstPrintArguments], whatever the interpreter:
    [match] returns the empty plan and false, without a question to the
    inference. *)
Theorem annotated_block_not_matched interp h b :
  (∀ inst args vararg m inst_loc,
     inst ∈ block_body h b →
     insts h !! inst = Some (Print args vararg m inst_loc) →
     m ≠ ∅) →
  DetectConstPrintArguments.match_ interp h b
  = Ok ({| DetectConstPrintArguments.consts := ∅;
           DetectConstPrintArguments.block := b |}, false).
Proof.
  intros Hann. unfold DetectConstPrintArguments.match_.
  rewrite for_each_skip; [done|].
  apply Forall_forall. intros inst [Hin _]%elem_of_find_insts consts.
  unfold DetectConstPrintArguments.match_inst.
  destruct (insts h !! inst) as [[|args va c lc| |]|] eqn:Hi; try done.
  by rewrite (proj2 (truthy_dict_true c) (Hann inst args va c lc Hin Hi)).
Qed.

(** Also an interpreter that raises a TypeError finds nothing to do and
    nothing to raise on an annotated block. *)
Lemma annotated_block_not_matched_witness :
  DetectConstPrintArguments.match_ MoreExamples.failing MoreExamples.annotated 0
  = Ok ({| DetectConstPrintArguments.consts := ∅;
           DetectConstPrintArguments.block := 0 |}, false).
Proof.
  apply annotated_block_not_matched.
  intros inst args va m lc Hin Hi. vm_compute in Hin.
  repeat (apply elem_of_cons in Hin as [->|Hin]);
    try (by apply elem_of_nil in Hin);
    vm_compute in Hi; try discriminate; injection Hi as _ _ <- _.
  discriminate.
Defined.

(** ** Exceptions that leave [match] *)

Lemma find_insts_split h b cls pre inst post i :
  block_body h b = pre ++ inst :: post →
  insts h !! inst = Some i →
  isinstance i cls = true →
  ∃ pre' post',
    find_insts h b cls = pre' ++ inst :: post' ∧ ∀ x, x ∈ pre' → x ∈ pre.
Proof.
  intros Hbody Hi Hcls. unfold find_insts. rewrite Hbody, List.filter_app.
  cbn [List.filter]. rewrite Hi, Hcls. eexists _, _. split; [done|].
  intros x Hx. apply list_elem_of_In, filter_In in Hx as [Hx _].
  by apply list_elem_of_In.
Qed.

Lemma print_call_Ok_if interp h inst :
  (∀ expr target inst_loc e,
     insts h !! inst = Some (Assign (VExpr expr) target inst_loc) →
     infer_constant interp (func expr) = Raise e →
     e = ConstantInferenceError) →
  ∃ o, print_call interp h inst = Ok o.
Proof.
  intros Herr. unfold print_call.
  destruct (insts h !! inst) as [[[expr| | |] target lc| | |]|]; eauto.
  destruct (_ && _); eauto.
  destruct (infer_constant interp (func expr)) as [c|e] eqn:Hc; eauto.
  rewrite (Herr expr target lc e eq_refl Hc). eauto.
Qed.

(** X6.  An exception of the inference that is no ConstantInferenceError
    leaves [RewritePrintCalls.match]: when the callee of a call without
    keyword arguments makes the inference raise it, and no callee of an
    earlier assignment of the block has done so, [match] raises it. *)
Theorem print_calls_match_raises interp h b pre inst post
    expr target inst_loc e :
  block_body h b = pre ++ inst :: post →
  (∀ x expr' target' loc' e',
     x ∈ pre →
     insts h !! x = Some (Assign (VExpr expr') target' loc') →
     infer_constant interp (func expr') = Raise e' →
     e' = ConstantInferenceError) →
  insts h !! inst = Some (Assign (VExpr expr) target inst_loc) →
  op expr = "call"%string →
  kws expr = [] →
  infer_constant interp (func expr) = Raise e →
  e ≠ ConstantInferenceError →
  RewritePrintCalls.match_ interp h b = Raise e.
Proof.
  intros Hbody Hpre Hi Hop Hkws Hraise Hne.
  destruct (find_insts_split h b AssignCls _ _ _ _ Hbody Hi eq_refl)
    as (pre' & post' & Hfind & Hsub).
  unfold RewritePrintCalls.match_. rewrite Hfind, for_each_app.
  destruct (for_each_match_inst_Ok interp h pre' ∅) as [p Hp].
  { apply Forall_forall. intros x Hx. apply print_call_Ok_if.
    intros expr' target' loc' e'. apply Hpre. by apply Hsub. }
  rewrite Hp, bind_Ok, for_each_cons.
  assert (RewritePrintCalls.match_inst interp h p inst = Raise e) as ->;
    [|done].
  unfold RewritePrintCalls.match_inst. rewrite Hi, Hkws, Hraise.
  apply String.eqb_eq in Hop as ->. simpl. by destruct e.
Qed.

(** In [r = print(1, 2); v = boom(1); s = print(2)] the TypeError of the
    inference of [boom] is the result of [match]. *)
Lemma print_calls_match_raises_witness :
  RewritePrintCalls.match_ MoreExamples.failing MoreExamples.boom_call 0
  = Raise (OtherError "TypeError").
Proof.
  apply (print_calls_match_raises MoreExamples.failing MoreExamples.boom_call 0
           [0] 1 [2] MoreExamples.boom_1 (Examples.var "v")
           (Examples.at_line 2)); try (vm_compute; reflexivity);
    [|discriminate].
  intros x expr' target' loc' e' ->%list_elem_of_singleton Hi He.
  vm_compute in Hi. injection Hi as <- _ _. vm_compute in He. discriminate.
Defined.

Lemma const_args_Ok_if interp args : ∀ n,
  (∀ var e, var ∈ args → infer_constant interp var = Raise e →
            e = ConstantInferenceError) →
  ∃ m, const_args interp n args = Ok m.
Proof.
  induction args as [|var args IH]; intros n Herr; simpl; [eauto|].
  destruct (IH (S n)) as [m Hm].
  { intros v e Hv. apply Herr. by right. }
  rewrite Hm.
  destruct (infer_constant interp var) as [c|e] eqn:Hc; simpl; [eauto|].
  rewrite (Herr var e) by (done || by left). eauto.
Qed.

Lemma const_args_raises interp args1 var args2 e : ∀ n,
  (∀ var' e', var' ∈ args1 → infer_constant interp var' = Raise e' →
              e' = ConstantInferenceError) →
  infer_constant interp var = Raise e →
  e ≠ ConstantInferenceError →
  const_args interp n (args1 ++ var :: args2) = Raise e.
Proof.
  induction args1 as [|v args1 IH]; intros n Herr Hraise Hne; simpl.
  - rewrite Hraise. by destruct e.
  - rewrite IH; [|by intros v' e' Hv'; apply Herr; right|done..].
    destruct (infer_constant interp v) as [c|e'] eqn:Hc; simpl; [done|].
    by rewrite (Herr v e') by (done || by left).
Qed.

(** X7.  An exception of the inference that is no ConstantInferenceError
    leaves [DetectConstPrintArguments.match]: when an argument of a Print node
    with an empty mapping makes the inference raise it, and no argument
    before it, in this node or in an earlier Print node of the block, has
    done so, [match] raises it. *)
Theorem const_args_match_raises interp h b pre inst post
    args1 var args2 vararg inst_loc e :
  block_body h b = pre ++ inst :: post →
  (∀ x args' vararg' consts' loc' var' e',
     x ∈ pre →
     insts h !! x = Some (Print args' vararg' consts' loc') →
     var' ∈ args' →
     infer_constant interp var' = Raise e' →
     e' = ConstantInferenceError) →
  insts h !! inst = Some (Print (args1 ++ var :: args2) vararg ∅ inst_loc) →
  (∀ var' e', var' ∈ args1 → infer_constant interp var' = Raise e' →
              e' = ConstantInferenceError) →
  infer_constant interp var = Raise e →
  e ≠ ConstantInferenceError →
  DetectConstPrintArguments.match_ interp h b = Raise e.
Proof.
  intros Hbody Hpre Hi Hargs1 Hraise Hne.
  destruct (find_insts_split h b PrintCls _ _ _ _ Hbody Hi eq_refl)
    as (pre' & post' & Hfind & Hsub).
  unfold DetectConstPrintArguments.match_. rewrite Hfind, for_each_app.
  destruct (for_each_match_consts_Ok interp h pre' ∅) as [p Hp].
  { apply Forall_forall. intros x Hx. unfold print_consts.
    destruct (insts h !! x) as [[|args' va' c' lc'| |]|] eqn:Hx'; eauto.
    destruct (truthy_dict c'); eauto. apply const_args_Ok_if.
    intros var' e' Hvar'. eapply Hpre; [by apply Hsub|done..]. }
  rewrite Hp, bind_Ok, for_each_cons, match_inst_print_consts.
  unfold print_consts. rewrite Hi.
  replace (truthy_dict (∅ : gmap nat PyObj)) with false
    by (symmetry; by apply truthy_dict_false).
  by rewrite (const_args_raises interp args1 var args2 e).
Qed.

(** In [print(1, boom, 2)] the TypeError of the inference of [boom] is the
    result of [match]. *)
Lemma const_args_match_raises_witness :
  DetectConstPrintArguments.match_ MoreExamples.failing MoreExamples.boom_node 0
  = Raise (OtherError "TypeError").
Proof.
  apply (const_args_match_raises MoreExamples.failing MoreExamples.boom_node 0
           [] 0 [] [Examples.var "$const1"] (Examples.var "boom")
           [Examples.var "$const2"] None (Examples.at_line 1));
    try (vm_compute; reflexivity); [| |discriminate].
  - by intros x ? ? ? ? ? ? ?%elem_of_nil.
  - intros var' e' ->%list_elem_of_singleton He. vm_compute in He.
    discriminate.
Defined.

(** ** The two rewrites one after the other *)

Lemma planned_replaced interp h b self found pre inst post expr :
  RewritePrintCalls.match_ interp h b = Ok (self, found) →
  block_body h b = pre ++ inst :: post →
  RewritePrintCalls.prints self !! inst = Some expr →
  ∃ h' pre' print_node assign_node post',
    RewritePrintCalls.apply self h = Ok (h', length (blocks h)) ∧
    block_body h' (length (blocks h))
      = pre' ++ print_node :: assign_node :: post' ∧
    insts h !! print_node = None ∧
    insts h' !! print_node
      = Some (Print (args expr) (vararg expr) ∅ (loc expr)).
Proof.
  intros Hmatch Hbody Hplan.
  destruct (block_body_live h b _ Hbody) as (blk & Hblk & _);
    [by destruct pre|].
  destruct (apply_Rewritten _ _ _ _ _ _ Hmatch Hblk)
    as (h' & Happly & Hrw & _).
  rewrite Hbody in Hrw.
  apply Rewritten_app_inv in Hrw as (pre' & l2 & Hl & _ & Hpost).
  inversion Hpost
    as [|? ? ? Hnone|? e v t lc pn an ? post' He Hi Hpn Han Hpn' Han' Hpost'];
    subst; [congruence|].
  rewrite Hplan in He. injection He as <-.
  by exists h', pre', pn, an, post'.
Qed.

Lemma annotated_mapping interp h b self found (inst : ref) args vararg inst_loc :
  DetectConstPrintArguments.match_ interp h b = Ok (self, found) →
  inst ∈ block_body h b →
  insts h !! inst = Some (Print args vararg ∅ inst_loc) →
  ∃ m,
    const_args interp 0 args = Ok m ∧
    insts (DetectConstPrintArguments.apply self h).1 !! inst
      = Some (Print args vararg m inst_loc).
Proof.
  intros Hm Hin Hi.
  destruct (cmatch_probed _ _ _ _ _ Hm inst Hin) as [m Hpc].
  assert (const_args interp 0 args = Ok m) as Hc.
  { unfold print_consts in Hpc. rewrite Hi in Hpc.
    by replace (truthy_dict (∅ : gmap nat PyObj)) with false in Hpc
      by (symmetry; by apply truthy_dict_false). }
  exists m. split; [done|]. rewrite (capply_lookup _ _ _ _ _ Hm).
  destruct (DetectConstPrintArguments.consts self !! inst) as [m'|] eqn:Hp.
  - apply (cmatch_plan _ _ _ _ _ Hm) in Hp
      as (_ & _ & args' & (va' & lc' & Hi') & Hc').
    rewrite Hi in Hi'. injection Hi' as <- <- <-. rewrite Hi. simpl.
    congruence.
  - rewrite Hi. do 2 f_equal.
    destruct (decide (m = ∅)) as [->|Hne]; [done|].
    assert (DetectConstPrintArguments.consts self !! inst = Some m) as Hp';
      [|congruence].
    apply (cmatch_plan _ _ _ _ _ Hm). split; [done|]. split; [done|].
    exists args. split; [by exists vararg, inst_loc|done].
Qed.

Lemma const_args_indices interp args m idx const :
  const_args interp 0 args = Ok m →
  m !! idx = Some const ↔
    ∃ var, args !! idx = Some var ∧ infer_constant interp var = Ok const.
Proof.
  intros Hc. rewrite (const_args_lookup _ _ _ _ _ _ Hc), Nat.sub_0_r. split.
  - intros (var & _ & ? & ?). eauto.
  - intros (var & ? & ?). exists var. split; [lia|done].
Qed.

(** X8.  [RewritePrintCalls] and then [DetectConstPrintArguments], the order
    of their registration: the Print node that the first rule has put in the
    place of a call of print is annotated by the second with the constants of
    the positional arguments of the call, at their indices, and nothing
    else. *)
Theorem print_call_annotated interp h b self1 found1 pre inst post
    expr target inst_loc h1 new_block self2 found2 :
  RewritePrintCalls.match_ interp h b = Ok (self1, found1) →
  block_body h b = pre ++ inst :: post →
  insts h !! inst = Some (Assign (VExpr expr) target inst_loc) →
  op expr = "call"%string →
  kws expr = [] →
  infer_constant interp (func expr) = Ok BuiltinPrint →
  RewritePrintCalls.apply self1 h = Ok (h1, new_block) →
  DetectConstPrintArguments.match_ interp h1 new_block = Ok (self2, found2) →
  ∃ print_node m,
    print_node ∈ block_body h1 new_block ∧
    insts h !! print_node = None ∧
    insts (DetectConstPrintArguments.apply self2 h1).1 !! print_node
      = Some (Print (args expr) (vararg expr) m (loc expr)) ∧
    ∀ idx const,
      m !! idx = Some const ↔
        ∃ var, args expr !! idx = Some var ∧
               infer_constant interp var = Ok const.
Proof.
  intros Hm1 Hbody Hi Hop Hkws Hcallee Ha1 Hm2.
  assert (RewritePrintCalls.prints self1 !! inst = Some expr) as Hplan.
  { apply (match_plan _ _ _ _ _ Hm1). split.
    - rewrite Hbody, elem_of_app. right. by left.
    - by exists target, inst_loc. }
  destruct (planned_replaced _ _ _ _ _ _ _ _ _ Hm1 Hbody Hplan)
    as (h' & pre' & pn & an & post' & Ha1' & Hbody' & Hfresh & Hpn).
  rewrite Ha1 in Ha1'. injection Ha1' as <- ->.
  assert (pn ∈ block_body h1 (length (blocks h))) as Hin.
  { rewrite Hbody', elem_of_app. right. by left. }
  destruct (annotated_mapping _ _ _ _ _ _ _ _ _ Hm2 Hin Hpn) as (m & Hc & Hm).
  exists pn, m. split; [done|]. split; [done|]. split; [done|].
  intros idx const. by apply const_args_indices.
Qed.

(** [r = print(1, 2)] ends as a Print node with the mapping {0: 1, 1: 2}. *)
Lemma print_call_annotated_witness :
  ∃ h1 new_block self2 found2 print_node,
    RewritePrintCalls.apply Examples.calls_plan Examples.calls
      = Ok (h1, new_block) ∧
    DetectConstPrintArguments.match_ Examples.interp h1 new_block
      = Ok (self2, found2) ∧
    insts (DetectConstPrintArguments.apply self2 h1).1 !! print_node
      = Some (Print [Examples.var "$const1"; Examples.var "$const2"] None
                {[ 0 := PyInt 1; 1 := PyInt 2 ]} (loc Examples.print_1_2)).
Proof.
  pose proof apply_calls as Ha1.
  set (h1 := {| insts := _; blocks := _ |}) in Ha1.
  destruct (DetectConstPrintArguments.match_ Examples.interp h1 1)
    as [[self2 found2]|] eqn:Hm2; [|by vm_compute in Hm2].
  destruct (print_call_annotated Examples.interp Examples.calls 0
              Examples.calls_plan true [] 0 [1; 2; 3; 4] Examples.print_1_2
              (Examples.var "r") (Examples.at_line 1) h1 1 self2 found2)
    as (pn & m & Hin & _ & Hnode & _);
    [vm_compute; reflexivity..|exact Ha1|exact Hm2|].
  exists h1, 1, self2, found2, pn. split; [exact Ha1|]. split; [exact Hm2|].
  assert (pn = 5) as ->.
  { vm_compute in Hin.
    repeat (apply elem_of_cons in Hin as [->|Hin]);
      try (by apply elem_of_nil in Hin); try done;
      vm_compute in Hm2; injection Hm2 as <- <-; vm_compute in Hnode;
      discriminate. }
  vm_compute in Hm2. injection Hm2 as <- <-. vm_compute. reflexivity.
Defined.

(** ** What is never rewritten *)

(** X9.  Only the assignment of a call can be matched by
    [RewritePrintCalls]: an instruction that is no assignment, an assignment
    of a constant, of a variable or of a global (so [p = print]), and an
    assignment of an expression that is no call leave the plan as it is,
    whatever the interpreter, and [apply] carries them over as they are to
    their place in the new block, between the rewritten instructions that
    stood before them and those that stood after them. *)
Theorem non_call_not_matched interp h b self found pre inst post i :
  RewritePrintCalls.match_ interp h b = Ok (self, found) →
  block_body h b = pre ++ inst :: post →
  insts h !! inst = Some i →
  (∀ expr target inst_loc,
     i = Assign (VExpr expr) target inst_loc → op expr ≠ "call"%string) →
  (∀ interp' prints,
     RewritePrintCalls.match_inst interp' h prints inst = Ok prints) ∧
  RewritePrintCalls.prints self !! inst = None ∧
  ∃ h' new_block pre' post',
    RewritePrintCalls.apply self h = Ok (h', new_block) ∧
    block_body h' new_block = pre' ++ inst :: post' ∧
    insts h' !! inst = Some i ∧
    Rewritten (RewritePrintCalls.prints self) h h' pre pre' ∧
    Rewritten (RewritePrintCalls.prints self) h h' post post'.
Proof.
  intros Hmatch Hbody Hi Hnocall.
  assert (RewritePrintCalls.prints self !! inst = None) as Hplan.
  { destruct (RewritePrintCalls.prints self !! inst) as [e|] eqn:Hp; [|done].
    apply (match_plan _ _ _ _ _ Hmatch) in Hp
      as (_ & t & lc & Hi' & Hop & _).
    rewrite Hi in Hi'. injection Hi' as ->. by destruct (Hnocall e t lc). }
  split; [|split; [done|]].
  - intros interp' prints. unfold RewritePrintCalls.match_inst. rewrite Hi.
    destruct i as [[expr| | |] target lc| | |]; try done.
    destruct (String.eqb (op expr) "call") eqn:Hop; [|done].
    apply String.eqb_eq in Hop. by destruct (Hnocall expr target lc).
  - destruct (kept_in_place _ _ _ _ _ _ _ _ Hmatch Hbody Hplan)
      as (h' & nb & pre' & post' & Happly & Hbody' & Hpre & Hpost & Hext).
    exists h', nb, pre', post'. split; [done|]. split; [done|].
    split; [by apply Hext|done].
Qed.

Example match_no_call :
  RewritePrintCalls.match_ Examples.interp MoreExamples.no_call 0
  = Ok ({| RewritePrintCalls.prints := ∅; RewritePrintCalls.block := 0 |},
        false).
Proof. vm_compute. reflexivity. Qed.

(** [p = print] loads the builtin and calls nothing: it stays at the head of
    the block, before the two instructions that follow it. *)
Lemma non_call_not_matched_witness :
  ∃ h' new_block pre' post',
    RewritePrintCalls.apply
      {| RewritePrintCalls.prints := ∅; RewritePrintCalls.block := 0 |}
      MoreExamples.no_call = Ok (h', new_block) ∧
    block_body h' new_block = pre' ++ 0 :: post' ∧
    insts h' !! 0
      = Some (Assign (VGlobal "print" BuiltinPrint (Examples.at_line 1))
                (Examples.var "p") (Examples.at_line 1)) ∧
    Rewritten ∅ MoreExamples.no_call h' [] pre' ∧
    Rewritten ∅ MoreExamples.no_call h' [1; 2] post'.
Proof.
  apply (non_call_not_matched Examples.interp MoreExamples.no_call 0 _ false
           [] 0 [1; 2] _ match_no_call); [vm_compute; reflexivity..|].
  discriminate.
Defined.

(** ** The mapping of the constants *)

(** X10.  Every index of a mapping in the plan of
    [DetectConstPrintArguments.match] is the index of an argument of the
    node; when the inference resolves every argument of the node, the indices
    of the mapping are all the indices of its arguments. *)
Theorem const_mapping_bounds interp h b self found (inst : ref) m :
  DetectConstPrintArguments.match_ interp h b = Ok (self, found) →
  DetectConstPrintArguments.consts self !! inst = Some m →
  ∃ args vararg inst_loc,
    insts h !! inst = Some (Print args vararg ∅ inst_loc) ∧
    (∀ idx, is_Some (m !! idx) → idx < length args) ∧
    ((∀ var, var ∈ args → ∃ const, infer_constant interp var = Ok const) →
     dom m = set_seq 0 (length args)).
Proof.
  intros Hm Hp.
  apply (cmatch_plan _ _ _ _ _ Hm) in Hp
    as (_ & _ & args & (va & lc & Hi) & Hc).
  exists args, va, lc. split; [done|]. split.
  - intros idx [c (var & Hl & _)%(const_args_indices _ _ _ _ _ Hc)].
    by eapply lookup_lt_Some.
  - intros Hall. apply set_eq. intros idx.
    rewrite elem_of_dom, elem_of_set_seq. split.
    + intros [c (var & Hl & _)%(const_args_indices _ _ _ _ _ Hc)].
      apply lookup_lt_Some in Hl. lia.
    + intros [_ Hlt]. simpl in Hlt.
      destruct (lookup_lt_is_Some_2 args idx Hlt) as [var Hl].
      destruct (Hall var) as [c Hv]; [by eapply list_elem_of_lookup_2|].
      exists c. apply (const_args_indices _ _ _ _ _ Hc). eauto.
Qed.

(** The mapping {0: 1} of [print(1, y)] has the index 0 only, below 2. *)
Lemma const_mapping_bounds_witness :
  ∃ args vararg inst_loc,
    insts Examples.nodes !! 0 = Some (Print args vararg ∅ inst_loc) ∧
    ∀ idx, is_Some (({[ 0 := PyInt 1 ]} : gmap nat PyObj) !! idx) →
           idx < length args.
Proof.
  destruct (const_mapping_bounds Examples.interp Examples.nodes 0
              Examples.nodes_plan true 0 {[ 0 := PyInt 1 ]} match_nodes)
    as (args & va & lc & Hi & Hlt & _); [vm_compute; reflexivity|].
  by exists args, va, lc.
Defined.

(** X11.  After a [match] of [DetectConstPrintArguments] that found nothing,
    [apply] returns the block and the store as they are. *)
Theorem const_apply_noop interp h b self :
  DetectConstPrintArguments.match_ interp h b = Ok (self, false) →
  DetectConstPrintArguments.apply self h = (h, b).
Proof.
  intros Hm. destruct (cmatch_facts _ _ _ _ _ Hm) as (Hb & Hf & _).
  symmetry in Hf. apply not_found_empty in Hf.
  by rewrite const_apply_empty, Hb.
Qed.

Lemma const_apply_noop_witness :
  DetectConstPrintArguments.apply
    {| DetectConstPrintArguments.consts := ∅;
       DetectConstPrintArguments.block := 0 |} Examples.no_const
  = (Examples.no_const, 0).
Proof.
  apply (const_apply_noop Examples.interp). apply match_no_const.
Defined.
